(** * Minesweeper: the board generator and the game engine of [minesweeper.py]

    A shallow embedding of the game logic of [MinesweeperWindow] and of the
    parameter validation of [StartWindow.on_start_game], followed by the
    properties the specification states about them.

    Conventions of the embedding.
    - A cell is the four-field dictionary of the source, as a record.
    - The board is the list of rows of the source, [list (list Cell)].
    - Python integers are [Z]; list subscription follows Python: a negative
      index [i] stands for [i + len], and an index outside [-len, len)
      raises [IndexError].
    - [for x in range(a, b)] is a left fold over [py_range a b]; the loop
      state is threaded explicitly.
    - The Qt widgets (buttons, dialogs, style sheets) carry no game state and
      are left out, except the text of [info_label], which is the only place
      where the source records whether a finished game was won or lost. *)

From Stdlib Require Import ZArith Lia Ascii.
From Stdlib Require DecimalString.
From stdpp Require Import prelude strings gmap.

Local Open Scope Z_scope.

(** ** Data model *)

(** One entry of [self.board[r][c]]: the dictionary with the keys
    ["is_mine"], ["adjacent_mines"], ["is_revealed"], ["is_flagged"]. *)
Record Cell : Type := mkCell {
  is_mine : bool;
  adjacent_mines : Z;
  is_revealed : bool;
  is_flagged : bool
}.

Abbreviation Board := (list (list Cell)).
Abbreviation pos := (Z * Z)%type.

(** The dictionary every cell starts as, in [MinesweeperWindow.__init__]. *)
Definition fresh_cell : Cell := mkCell false 0 false false.

(** The four assignments to a key of a cell that the source performs. *)
Definition set_is_mine (v : bool) (x : Cell) : Cell :=
  mkCell v (adjacent_mines x) (is_revealed x) (is_flagged x).
Definition set_adjacent_mines (v : Z) (x : Cell) : Cell :=
  mkCell (is_mine x) v (is_revealed x) (is_flagged x).
Definition set_is_revealed (v : bool) (x : Cell) : Cell :=
  mkCell (is_mine x) (adjacent_mines x) v (is_flagged x).
Definition set_is_flagged (v : bool) (x : Cell) : Cell :=
  mkCell (is_mine x) (adjacent_mines x) (is_revealed x) v.

(** The attributes of a [MinesweeperWindow] that the game logic reads or
    writes: [self.N], [self.M], [self.game_over], [self.board] and the text
    of [self.info_label]. *)
Record Game : Type := mkGame {
  N : Z;
  M : Z;
  game_over : bool;
  board : Board;
  info_label : string
}.

(** ** Python lists, ranges and loops *)

(** [lst[i]] for a list of length [len]: the position that is read, or
    [None] where Python raises [IndexError]. *)
Definition py_index (len i : Z) : option nat :=
  let j := if i <? 0 then i + len else i in
  if (0 <=? j) && (j <? len) then Some (Z.to_nat j) else None.

(** [range(lo, hi)]. *)
Definition py_range (lo hi : Z) : list Z := seqZ lo (hi - lo).

(** [for x in xs: body], with the loop state [s] threaded through. *)
Definition for_in {A S : Type} (xs : list A) (body : A → S → S) (s : S) : S :=
  foldl (λ s x, body x s) s xs.

(** [self.board[row][col]] resolved to the row and column it denotes;
    [None] where either subscription raises [IndexError]. *)
Definition locate (b : Board) (row col : Z) : option (nat * nat) :=
  i ← py_index (Z.of_nat (length b)) row;
  cells ← b !! i;
  j ← py_index (Z.of_nat (length cells)) col;
  Some (i, j).

(** Reading [self.board[row][col]]. Inside the loops of the source the
    indices come from [range(max(0, _), min(self.N, _))] or [range(self.N)]
    and the board is N x N, so that the subscription cannot raise there
    (lemma [locate_in_grid]); the default is never used on such boards. *)
Definition cell_at (b : Board) (row col : Z) : Cell :=
  default fresh_cell
    (ij ← locate b row col; cells ← b !! ij.1; cells !! ij.2).

(** [self.board[row][col][key] = v], as the cell transformer [f]. *)
Definition update_cell (f : Cell → Cell) (b : Board) (row col : Z) : Board :=
  match locate b row col with
  | Some (i, j) => alter (alter f j) i b
  | None => b
  end.

(** [range(max(0, r - 1), min(self.N, r + 2))]: the rows (or columns) of the
    3 x 3 window around [r], clipped at the border of the grid. *)
Definition window (n r : Z) : list Z :=
  py_range (Z.max 0 (r - 1)) (Z.min n (r + 2)).

(** ** Board generator *)

(** The board comprehension of [__init__]; every cell is a dictionary of
    its own, so that no two positions share a cell. *)
Definition empty_board (n : Z) : Board :=
  replicate (Z.to_nat n) (replicate (Z.to_nat n) fresh_cell).

(** [all_positions] of [_place_mines]. *)
Definition all_positions (n : Z) : list pos :=
  r ← py_range 0 n; c ← py_range 0 n; [(r, c)].

(** What [random.sample(population, k)] may return: [k] elements at
    distinct places of [population]. Every population below has no
    repetition, so the drawn elements are distinct. *)
Definition is_sample (population : list pos) (k : Z) (drawn : list pos) : Prop :=
  NoDup drawn ∧ drawn ⊆ population ∧ Z.of_nat (length drawn) = k.

(** [_place_mines], with the outcome [mine_positions] of the random draw
    as an argument (the properties below assume [is_sample] of it). *)
Definition _place_mines (mine_positions : list pos) (b : Board) : Board :=
  for_in mine_positions (λ '(r, c) b, update_cell (set_is_mine true) b r c) b.

(** The two inner loops of [_calculate_adjacency]: the number of mines in
    the clipped window around [(r, c)]. *)
Definition count_window_mines (n : Z) (b : Board) (r c : Z) : Z :=
  for_in (window n r) (λ nr,
    for_in (window n c) (λ nc count,
      if is_mine (cell_at b nr nc) then count + 1 else count)) 0.

(** [_calculate_adjacency]. *)
Definition _calculate_adjacency (n : Z) (b : Board) : Board :=
  for_in (py_range 0 n) (λ r,
    for_in (py_range 0 n) (λ c b,
      if is_mine (cell_at b r c)
      then update_cell (set_adjacent_mines (-1)) b r c
      else update_cell (set_adjacent_mines (count_window_mines n b r c)) b r c)) b.

(** [MinesweeperWindow.__init__]. *)
Definition MinesweeperWindow (n m : Z) (mine_positions : list pos) : Game :=
  {| N := n; M := m; game_over := false;
     board := _calculate_adjacency n (_place_mines mine_positions (empty_board n));
     info_label := "Be careful!" |}.

(** ** Game engine *)

(** How a call of [left_click] or [right_click] ends: it returns, leaving
    the game [g]; or it raises [IndexError], leaving the game [g]; or the
    fuel given to the work-list loop did not suffice (which never happens
    on an N x N board: [flood_fill_returns], [perform_returns_or_raises]). *)
Inductive result : Type :=
  | Return (g : Game)
  | IndexError (g : Game)
  | OutOfFuel.

Definition with_board (b : Board) (g : Game) : Game :=
  mkGame (N g) (M g) (game_over g) b (info_label g).

(** [self.info_label.setText(msg); self.game_over = True]. *)
Definition finish (msg : string) (g : Game) : Game :=
  mkGame (N g) (M g) true (board g) msg.

(** [_check_win]: the two loops return [False] at the first cell that is
    neither a mine nor revealed. *)
Definition _check_win (n : Z) (b : Board) : bool :=
  forallb (λ r,
    forallb (λ c,
      let cell := cell_at b r c in
      negb (negb (is_mine cell) && negb (is_revealed cell)))
      (py_range 0 n))
    (py_range 0 n).

(** [_show_all_mines]. *)
Definition _show_all_mines (n : Z) (b : Board) : Board :=
  for_in (py_range 0 n) (λ r,
    for_in (py_range 0 n) (λ c b,
      if is_mine (cell_at b r c)
      then update_cell (set_is_revealed true) b r c
      else b)) b.

(** The body of the [while] loop of [_flood_fill] after [stack.pop()] gave
    [(r, c)]: the two [for] loops over the window. The work list is kept
    with its top at the head, so that [stack.append] is a cons. *)
Definition flood_visit (n r c : Z) (s : Board * list pos) : Board * list pos :=
  for_in (window n r) (λ nr,
    for_in (window n c) (λ nc '(b, stack),
      let neighbor := cell_at b nr nc in
      if negb (is_revealed neighbor) && negb (is_flagged neighbor)
         && negb (is_mine neighbor)
      then
        let b' := update_cell (set_is_revealed true) b nr nc in
        if adjacent_mines neighbor =? 0 then (b', (nr, nc) :: stack)
        else (b', stack)
      else (b, stack))) s.

(** [while stack: ...]. One unit of fuel is spent per [stack.pop()]; the
    second component of the result lists the popped positions in order. *)
Fixpoint flood_loop (fuel : nat) (n : Z) (stack : list pos) (b : Board)
  : option (Board * list pos) :=
  match stack with
  | [] => Some (b, [])
  | (r, c) :: rest =>
    match fuel with
    | O => None
    | S fuel' =>
      let '(b', stack') := flood_visit n r c (b, rest) in
      '(b'', popped) ← flood_loop fuel' n stack' b';
      Some (b'', (r, c) :: popped)
    end
  end.

(** [_flood_fill]. *)
Definition _flood_fill (n : Z) (b : Board) (row col : Z) : option Board :=
  fst <$> flood_loop (S (Z.to_nat (n * n))) n [(row, col)] b.

(** [left_click]. *)
Definition left_click (g : Game) (row col : Z) : result :=
  if game_over g then Return g
  else match locate (board g) row col with
  | None => IndexError g
  | Some _ =>
    let cell := cell_at (board g) row col in
    if is_flagged cell || is_revealed cell then Return g
    else
      let b1 := update_cell (set_is_revealed true) (board g) row col in
      if is_mine cell then
        Return (finish "You hit a mine! Game Over!"
                  (with_board (_show_all_mines (N g) b1) g))
      else
        match (if adjacent_mines cell =? 0
               then _flood_fill (N g) b1 row col else Some b1) with
        | None => OutOfFuel
        | Some b2 =>
          if _check_win (N g) b2
          then Return (finish "Congratulations, you won!" (with_board b2 g))
          else Return (with_board b2 g)
        end
  end.

(** [right_click]. *)
Definition right_click (g : Game) (row col : Z) : result :=
  if game_over g then Return g
  else match locate (board g) row col with
  | None => IndexError g
  | Some _ =>
    let cell := cell_at (board g) row col in
    if is_revealed cell then Return g
    else
      Return (with_board
        (update_cell (set_is_flagged (negb (is_flagged cell))) (board g) row col) g)
  end.

(** ** Parameter entry *)

(** What [on_start_game] leaves behind: an error text in [error_label] and
    no game window, or a new [MinesweeperWindow]. *)
Inductive start_result : Type :=
  | ShowError (msg : string)
  | OpenGame (g : Game).

Section StartWindow.

(** Python's [int(text)]; [None] stands for [ValueError]. *)
Variable int : string → option Z.

(** [StartWindow.on_start_game]; [mine_positions] is the draw that the
    constructor of the game window will make. *)
Definition on_start_game (lineedit_n lineedit_m : string)
    (mine_positions : list pos) : start_result :=
  match int lineedit_n with
  | None => ShowError "Please enter valid integers!"
  | Some n =>
    match int lineedit_m with
    | None => ShowError "Please enter valid integers!"
    | Some m =>
      if n <=? 0 then ShowError "N must be > 0!"
      else if (m <? 0) || (m >=? n * n)
      then ShowError "Invalid range for M! (0 <= M < N*N)"
      else OpenGame (MinesweeperWindow n m mine_positions)
    end
  end.

End StartWindow.

(** ** Runs of a game *)

(** The two signals a [CellButton] emits. *)
Inductive action : Type :=
  | LeftClick (row col : Z)
  | RightClick (row col : Z).

(** The handler connected to each signal in [init_ui]. *)
Definition perform (g : Game) (a : action) : result :=
  match a with
  | LeftClick row col => left_click g row col
  | RightClick row col => right_click g row col
  end.

(** The games that exist at run time: built by the constructor from
    validated parameters and a draw of [random.sample], then changed by
    calls of the two click handlers that return. (A call that raises leaves
    the game as it was.) *)
Inductive reachable : Game → Prop :=
  | reachable_new n m mine_positions :
      0 < n → 0 <= m < n * n →
      is_sample (all_positions n) m mine_positions →
      reachable (MinesweeperWindow n m mine_positions)
  | reachable_step g a g' :
      reachable g → perform g a = Return g' → reachable g'.

(** ** Display *)

(** What the game shows of a [CellButton]: its text ([setText]) and its
    style sheet ([setStyleSheet]); a new button has the text [""] set in
    [init_ui] and Qt's empty default style sheet. *)
Record Button : Type := mkButton {
  button_text : string;
  button_style : string
}.

Abbreviation Buttons := (list (list Button)).

Definition new_button : Button := mkButton "" "".

(** [self.buttons] after [init_ui]: one button per position. *)
Definition init_buttons (n : Z) : Buttons :=
  replicate (Z.to_nat n) (replicate (Z.to_nat n) new_button).

(** The dictionary [colors] of [_get_color]. *)
Definition colors : gmap Z string :=
  list_to_map
    [(1, "blue"); (2, "green"); (3, "red"); (4, "purple");
     (5, "maroon"); (6, "turquoise"); (7, "black"); (8, "gray")].

(** [_get_color]: [colors.get(adjacent, "black")]. *)
Definition _get_color (adjacent : Z) : string :=
  default "black" (colors !! adjacent).

(** Python's [str] of an integer: its decimal numeral. *)
Definition py_str (z : Z) : string :=
  DecimalString.NilZero.string_of_int (Z.to_int z).

(** The text and the style sheet [_update_button] gives to the button of
    the cell [x]; the flag text is the one-character string U+2691. *)
Definition button_face (x : Cell) : Button :=
  if is_flagged x then
    mkButton "⚑" "color: red; background-color: white;"
  else if is_revealed x then
    if is_mine x then
      mkButton "*" "color: white; background-color: red;"
    else
      let adjacent := adjacent_mines x in
      let text := if 0 <? adjacent then py_str adjacent else "" in
      let color := _get_color adjacent in
      mkButton text ("color: " ++ color ++ "; background-color: lightgray;")
  else
    mkButton "" "".

(** [self.buttons[row][col]], resolved as [locate] resolves
    [self.board[row][col]]. *)
Definition locate_button (bt : Buttons) (row col : Z) : option (nat * nat) :=
  i ← py_index (Z.of_nat (length bt)) row;
  btns ← bt !! i;
  j ← py_index (Z.of_nat (length btns)) col;
  Some (i, j).

Definition button_at (bt : Buttons) (row col : Z) : Button :=
  default new_button
    (ij ← locate_button bt row col; btns ← bt !! ij.1; btns !! ij.2).

(** [_update_button]: the button at [(row, col)] gets the face of the cell
    at [(row, col)]. The button grid has the shape of the board, so the
    subscription of [self.buttons] raises nowhere the one of [self.board]
    does not. *)
Definition _update_button (b : Board) (bt : Buttons) (row col : Z) : Buttons :=
  let cell := cell_at b row col in
  match locate_button bt row col with
  | Some (i, j) => alter (alter (λ _, button_face cell) j) i bt
  | None => bt
  end.

(** A game window: the game and its buttons. *)
Record Window : Type := mkWindow {
  game : Game;
  buttons : Buttons
}.

Inductive window_result : Type :=
  | WReturn (w : Window)
  | WIndexError (w : Window)
  | WOutOfFuel.

(** [MinesweeperWindow.__init__] with [init_ui]. *)
Definition MinesweeperWindow_ui (n m : Z) (mine_positions : list pos) : Window :=
  {| game := MinesweeperWindow n m mine_positions; buttons := init_buttons n |}.

(** [_show_all_mines], with its calls of [_update_button]. *)
Definition _show_all_mines_ui (n : Z) (s : Board * Buttons) : Board * Buttons :=
  for_in (py_range 0 n) (λ r,
    for_in (py_range 0 n) (λ c '(b, bt),
      if is_mine (cell_at b r c)
      then
        let b' := update_cell (set_is_revealed true) b r c in
        (b', _update_button b' bt r c)
      else (b, bt))) s.

(** The body of the loop of [_flood_fill], with its calls of
    [_update_button]. *)
Definition flood_visit_ui (n r c : Z) (s : Board * Buttons * list pos)
  : Board * Buttons * list pos :=
  for_in (window n r) (λ nr,
    for_in (window n c) (λ nc '(b, bt, stack),
      let neighbor := cell_at b nr nc in
      if negb (is_revealed neighbor) && negb (is_flagged neighbor)
         && negb (is_mine neighbor)
      then
        let b' := update_cell (set_is_revealed true) b nr nc in
        let bt' := _update_button b' bt nr nc in
        if adjacent_mines neighbor =? 0 then (b', bt', (nr, nc) :: stack)
        else (b', bt', stack)
      else (b, bt, stack))) s.

Fixpoint flood_loop_ui (fuel : nat) (n : Z) (stack : list pos)
    (b : Board) (bt : Buttons) : option (Board * Buttons) :=
  match stack with
  | [] => Some (b, bt)
  | (r, c) :: rest =>
    match fuel with
    | O => None
    | S fuel' =>
      let '(b', bt', stack') := flood_visit_ui n r c (b, bt, rest) in
      flood_loop_ui fuel' n stack' b' bt'
    end
  end.

(** [_flood_fill], with its calls of [_update_button]. *)
Definition _flood_fill_ui (n : Z) (b : Board) (bt : Buttons) (row col : Z)
  : option (Board * Buttons) :=
  flood_loop_ui (S (Z.to_nat (n * n))) n [(row, col)] b bt.

(** [left_click], with its calls of [_update_button]. *)
Definition left_click_ui (w : Window) (row col : Z) : window_result :=
  let g := game w in
  if game_over g then WReturn w
  else match locate (board g) row col with
  | None => WIndexError w
  | Some _ =>
    let cell := cell_at (board g) row col in
    if is_flagged cell || is_revealed cell then WReturn w
    else
      let b1 := update_cell (set_is_revealed true) (board g) row col in
      let bt1 := _update_button b1 (buttons w) row col in
      if is_mine cell then
        let '(b2, bt2) := _show_all_mines_ui (N g) (b1, bt1) in
        WReturn (mkWindow
          (finish "You hit a mine! Game Over!" (with_board b2 g)) bt2)
      else
        match (if adjacent_mines cell =? 0
               then _flood_fill_ui (N g) b1 bt1 row col
               else Some (b1, bt1)) with
        | None => WOutOfFuel
        | Some (b2, bt2) =>
          if _check_win (N g) b2
          then WReturn (mkWindow
                 (finish "Congratulations, you won!" (with_board b2 g)) bt2)
          else WReturn (mkWindow (with_board b2 g) bt2)
        end
  end.

(** [right_click], with its call of [_update_button]. *)
Definition right_click_ui (w : Window) (row col : Z) : window_result :=
  let g := game w in
  if game_over g then WReturn w
  else match locate (board g) row col with
  | None => WIndexError w
  | Some _ =>
    let cell := cell_at (board g) row col in
    if is_revealed cell then WReturn w
    else
      let b1 := update_cell (set_is_flagged (negb (is_flagged cell)))
                  (board g) row col in
      WReturn (mkWindow (with_board b1 g) (_update_button b1 (buttons w) row col))
  end.

(** ** Mouse events *)

(** [event.button()], as far as [mousePressEvent] tells the values apart. *)
Inductive MouseButton : Type :=
  | LeftButton
  | RightButton
  | OtherButton.

(** [CellButton.mousePressEvent]: the signal the button at [(row, col)]
    emits, if any. *)
Definition mousePressEvent (row col : Z) (button : MouseButton) : option action :=
  match button with
  | LeftButton => Some (LeftClick row col)
  | RightButton => Some (RightClick row col)
  | OtherButton => None
  end.

(** The slot connected to the signal, on the window. *)
Definition perform_ui (w : Window) (a : action) : window_result :=
  match a with
  | LeftClick row col => left_click_ui w row col
  | RightClick row col => right_click_ui w row col
  end.

(** A mouse press on the button at [(row, col)]. *)
Definition press (w : Window) (row col : Z) (button : MouseButton)
  : window_result :=
  match mousePressEvent row col button with
  | Some a => perform_ui w a
  | None => WReturn w
  end.

(** The windows that exist at run time: built from validated parameters,
    then changed by mouse presses on their buttons, which [init_ui] creates
    at the positions [(r, c)] with [r] and [c] in [range(self.N)]. *)
Inductive reachable_ui : Window → Prop :=
  | reachable_ui_new n m mine_positions :
      0 < n → 0 <= m < n * n →
      is_sample (all_positions n) m mine_positions →
      reachable_ui (MinesweeperWindow_ui n m mine_positions)
  | reachable_ui_press w row col button w' :
      reachable_ui w →
      (row, col) ∈ all_positions (N (game w)) →
      press w row col button = WReturn w' →
      reachable_ui w'.

(** ** Replay *)

(** [_replay_game]: a new window with the same [N] and [M]; its mines are
    drawn anew. *)
Definition _replay_game (w : Window) (mine_positions : list pos) : Window :=
  MinesweeperWindow_ui (N (game w)) (M (game w)) mine_positions.

(** * Notions used in the statements and in the proofs *)

(** ** Grids *)

(** The positions of the n x n grid, and the boards of that shape. *)
Definition in_grid (n : Z) (p : pos) : Prop :=
  0 <= p.1 < n ∧ 0 <= p.2 < n.

Definition wf_board (n : Z) (b : Board) : Prop :=
  length b = Z.to_nat n ∧ Forall (λ cells, length cells = Z.to_nat n) b.

(** The cell at a position given as a pair. *)
Definition cell (b : Board) (p : pos) : Cell := cell_at b p.1 p.2.

(** [q] lies in the 3 x 3 window around [p]: the two share an edge or a
    corner, or are equal. *)
Definition adjacent (p q : pos) : Prop :=
  p.1 - 1 <= q.1 <= p.1 + 1 ∧ p.2 - 1 <= q.2 <= p.2 + 1.

(** The positions the two window loops around [(r, c)] run through, in the
    order of the loops. *)
Definition neighborhood (n r c : Z) : list pos :=
  nr ← window n r; nc ← window n c; [(nr, nc)].

(** ** Counting cells *)

(** The number of cells with [is_mine] set. *)
Definition mine_count (b : Board) : Z :=
  Z.of_nat (length (filter (λ x, is_mine x = true) (concat b))).

(** The value [_calculate_adjacency] stores at position [p]. *)
Definition adjacency_value (n : Z) (b : Board) (p : pos) : Z :=
  if is_mine (cell b p) then -1 else count_window_mines n b p.1 p.2.

(** ** Flood fill *)

(** The test of the flood fill: not revealed, not flagged, not a mine. *)
Definition openableb (x : Cell) : bool :=
  negb (is_revealed x) && negb (is_flagged x) && negb (is_mine x).

Definition openable (b : Board) (q : pos) : Prop := openableb (cell b q) = true.

(** The number of grid positions whose cell is not revealed. *)
Definition hidden_count (n : Z) (b : Board) : nat :=
  length (filter (λ p, is_revealed (cell b p) = false) (all_positions n)).

(** What the two window loops do at one neighbour. *)
Definition flood_open (q : pos) (s : Board * list pos) : Board * list pos :=
  let '(b, stack) := s in
  if openableb (cell b q)
  then
    let b' := update_cell (set_is_revealed true) b q.1 q.2 in
    if adjacent_mines (cell b q) =? 0 then (b', q :: stack) else (b', stack)
  else (b, stack).

Global Instance openable_dec b q : Decision (openable b q).
Proof. unfold openable. apply _. Defined.

(** The cells the flood fill explores from [start] on board [b]: [start]
    itself, and then every cell of the grid that can still be opened, has
    no adjacent mine, and touches (by an edge or a corner) a cell explored
    before. *)
Inductive open_region (n : Z) (b : Board) (start : pos) : pos → Prop :=
  | open_region_start : open_region n b start start
  | open_region_step p q :
      open_region n b start p →
      in_grid n q → adjacent p q →
      openable b q → adjacent_mines (cell b q) = 0 →
      open_region n b start q.

(** The cells the flood fill opens: those that can be opened and touch an
    explored cell. *)
Definition flood_target (n : Z) (b : Board) (start q : pos) : Prop :=
  openable b q ∧ ∃ p, open_region n b start p ∧ adjacent p q.

(** During a flood fill from [start] on board [b1], with current board
    [b]: the cells whose window has to be visited, ... *)
Definition discovered (n : Z) (b1 : Board) (start : pos) (b : Board) (p : pos)
  : Prop :=
  p = start ∨
  (in_grid n p ∧ openable b1 p ∧ adjacent_mines (cell b1 p) = 0
   ∧ is_revealed (cell b p) = true).

(** ... the cells whose window has been visited, ... *)
Definition processed (n : Z) (b1 b : Board) (p : pos) : Prop :=
  ∀ q, in_grid n q → adjacent p q → openable b1 q →
       is_revealed (cell b q) = true.

(** ... and the invariant that gives the revealed region. *)
Definition region_inv (n : Z) (b1 : Board) (start : pos)
    (b : Board) (stack popped : list pos) : Prop :=
  wf_board n b ∧
  (∀ q, in_grid n q →
     cell b q = cell b1 q ∨
     (flood_target n b1 start q ∧ cell b q = set_is_revealed true (cell b1 q))) ∧
  (∀ p, p ∈ stack → open_region n b1 start p) ∧
  (∀ p, discovered n b1 start b p → p ∈ stack ∨ processed n b1 b p).

(** The invariant that bounds the pops of a flood fill from [start] on
    board [b1]. *)
Definition trace_inv (n : Z) (b1 : Board) (start : pos)
    (b : Board) (stack popped : list pos) : Prop :=
  wf_board n b ∧
  NoDup (popped ++ stack) ∧
  (∀ p, p ∈ popped ++ stack →
     p = start ∨ (in_grid n p ∧ is_revealed (cell b1 p) = false)) ∧
  (∀ p, p ∈ popped ++ stack → in_grid n p → is_revealed (cell b p) = true) ∧
  (∀ q, in_grid n q → is_revealed (cell b1 q) = true →
        is_revealed (cell b q) = true) ∧
  (length popped + length stack + hidden_count n b ≤ S (hidden_count n b1))%nat.

(** The cells a click on a hidden, unflagged cell that is no mine opens:
    the cell itself and, if it has no adjacent mine, the targets of the
    flood fill that starts there. *)
Definition opened_by_click (g : Game) (row col : Z) (p q : pos) : Prop :=
  q = p ∨
  (adjacent_mines (cell (board g) p) = 0 ∧
   flood_target (N g)
     (update_cell (set_is_revealed true) (board g) row col) (row, col) q).

(** ** Steps and runs *)

(** The two texts [left_click] puts into [info_label] when a game ends. *)
Definition lost_text : string := "You hit a mine! Game Over!".
Definition won_text : string := "Congratulations, you won!".

(** Every call of a click handler on an N x N board falls under one of the
    cases below; [p] is the grid position that [board[row][col]] denotes. *)
Inductive click_step (g : Game) : action → result → Prop :=
  | step_game_over a :
      game_over g = true →
      click_step g a (Return g)
  | step_left_raises row col :
      game_over g = false → locate (board g) row col = None →
      click_step g (LeftClick row col) (IndexError g)
  | step_right_raises row col :
      game_over g = false → locate (board g) row col = None →
      click_step g (RightClick row col) (IndexError g)
  | step_left_ignored row col i j :
      let p := (Z.of_nat i, Z.of_nat j) in
      game_over g = false → locate (board g) row col = Some (i, j) →
      in_grid (N g) p →
      is_flagged (cell (board g) p) = true ∨ is_revealed (cell (board g) p) = true →
      click_step g (LeftClick row col) (Return g)
  | step_left_mine row col i j b2 :
      let p := (Z.of_nat i, Z.of_nat j) in
      game_over g = false → locate (board g) row col = Some (i, j) →
      in_grid (N g) p →
      is_flagged (cell (board g) p) = false →
      is_revealed (cell (board g) p) = false →
      is_mine (cell (board g) p) = true →
      wf_board (N g) b2 →
      (∀ q, in_grid (N g) q →
         cell b2 q = if is_mine (cell (board g) q)
                     then set_is_revealed true (cell (board g) q)
                     else cell (board g) q) →
      click_step g (LeftClick row col) (Return (finish lost_text (with_board b2 g)))
  | step_left_safe row col i j b2 :
      let p := (Z.of_nat i, Z.of_nat j) in
      game_over g = false → locate (board g) row col = Some (i, j) →
      in_grid (N g) p →
      is_flagged (cell (board g) p) = false →
      is_revealed (cell (board g) p) = false →
      is_mine (cell (board g) p) = false →
      wf_board (N g) b2 →
      (∀ q, in_grid (N g) q →
         (opened_by_click g row col p q →
            cell b2 q = set_is_revealed true (cell (board g) q)) ∧
         (cell b2 q = cell (board g) q ∨
          (opened_by_click g row col p q ∧
           cell b2 q = set_is_revealed true (cell (board g) q)))) →
      click_step g (LeftClick row col)
        (Return (if _check_win (N g) b2
                 then finish won_text (with_board b2 g) else with_board b2 g))
  | step_right_ignored row col i j :
      let p := (Z.of_nat i, Z.of_nat j) in
      game_over g = false → locate (board g) row col = Some (i, j) →
      in_grid (N g) p →
      is_revealed (cell (board g) p) = true →
      click_step g (RightClick row col) (Return g)
  | step_right_toggles row col i j b2 :
      let p := (Z.of_nat i, Z.of_nat j) in
      game_over g = false → locate (board g) row col = Some (i, j) →
      in_grid (N g) p →
      is_revealed (cell (board g) p) = false →
      wf_board (N g) b2 →
      (∀ q, in_grid (N g) q →
         cell b2 q = if decide (p = q)
                     then set_is_flagged (negb (is_flagged (cell (board g) p)))
                            (cell (board g) p)
                     else cell (board g) q) →
      click_step g (RightClick row col) (Return (with_board b2 g)).

(** What holds of every game that exists at run time ([reachable_inv]). *)
Record game_inv (g : Game) : Prop := {
  inv_size : 0 < N g;
  inv_mines : 0 <= M g < N g * N g;
  inv_wf : wf_board (N g) (board g);
  inv_mine_count : mine_count (board g) = M g;
  inv_adjacency : ∀ p, in_grid (N g) p →
    adjacent_mines (cell (board g) p) = adjacency_value (N g) (board g) p;
  inv_flag : ∀ p, in_grid (N g) p →
    is_flagged (cell (board g) p) = true → is_revealed (cell (board g) p) = true →
    is_mine (cell (board g) p) = true ∧ game_over g = true;
  inv_progress : game_over g = false → _check_win (N g) (board g) = false
}.

(** The game a call leaves behind. *)
Definition state_after (g : Game) (r : result) : Game :=
  match r with
  | Return g' => g'
  | IndexError g' => g'
  | OutOfFuel => g
  end.

(** The game after the clicks [acts], one after the other. *)
Definition play (g : Game) (acts : list action) : Game :=
  foldl (λ g a, state_after g (perform g a)) g acts.

(** ** The neighbours of a cell, as the specification counts them *)

(** The eight steps to a cell that shares an edge or a corner. *)
Definition moore_offsets : list pos :=
  [(-1, -1); (-1, 0); (-1, 1); (0, -1); (0, 1); (1, -1); (1, 0); (1, 1)].

Global Instance in_grid_dec n p : Decision (in_grid n p).
Proof. unfold in_grid. apply _. Defined.

(** The up-to-8 neighbours of [p]: those of the eight surrounding
    positions that lie in the grid. *)
Definition grid_neighbors (n : Z) (p : pos) : list pos :=
  filter (in_grid n) ((λ d, (p.1 + d.1, p.2 + d.2)) <$> moore_offsets).

(** The number of mines among the neighbours of [p]. *)
Definition mine_neighbors (n : Z) (b : Board) (p : pos) : Z :=
  Z.of_nat (length (filter (λ q, is_mine (cell b q) = true) (grid_neighbors n p))).

(** ** Two small games *)

(** The 3 x 3 board with its only mine in the corner (2, 2). *)
Definition corner_game : Game := MinesweeperWindow 3 1 [(2, 2)].

(** The 2 x 2 board with mines at (0, 0) and (1, 1). *)
Definition diagonal_game : Game := MinesweeperWindow 2 2 [(0, 0); (1, 1)].

(** ** [int] on a text *)

(** Python's [int(text)] on an ASCII text, read the way CPython reads it:
    white space on both sides, then an optional sign right before the
    first digit, then decimal digits with single underscores between them.
    [None] stands for [ValueError]. A text with a character outside ASCII
    is refused here (Python takes the decimal digits and the spaces of
    other scripts as well). *)

Definition ord (c : Ascii.ascii) : Z := Z.of_N (Ascii.N_of_ascii c).

(** The white space that [int] skips in an ASCII text: tab, line feed,
    vertical tab, form feed, carriage return and the space. *)
Definition isspace (c : Ascii.ascii) : bool :=
  ((9 <=? ord c) && (ord c <=? 13)) || (ord c =? 32).

Definition digit_value (c : Ascii.ascii) : option Z :=
  if (48 <=? ord c) && (ord c <=? 57) then Some (ord c - 48) else None.

Fixpoint skip_spaces (text : string) : string :=
  match text with
  | String c rest => if isspace c then skip_spaces rest else text
  | EmptyString => text
  end.

(** The digits and underscores at the start of [text]: their value, the
    number of digits, whether the last one is an underscore, and the text
    that follows; [None] where two underscores follow each other. *)
Fixpoint scan_digits (prev_underscore : bool) (value digits : Z)
    (text : string) : option (Z * Z * bool * string) :=
  match text with
  | String c rest =>
    if Ascii.eqb c "_"%char then
      if prev_underscore then None else scan_digits true value digits rest
    else
      match digit_value c with
      | Some d => scan_digits false (10 * value + d) (digits + 1) rest
      | None => Some (value, digits, prev_underscore, text)
      end
  | EmptyString => Some (value, digits, prev_underscore, text)
  end.

(** The longest numeral [int] converts (the interpreter's default). *)
Definition max_str_digits : Z := 4300.

(** The text after the sign: no underscore first or last, one digit at
    least, only white space after the digits. *)
Definition int_unsigned (text : string) : option Z :=
  match text with
  | String "_"%char _ => None
  | _ =>
    match scan_digits false 0 0 text with
    | Some (value, digits, prev_underscore, rest) =>
      if prev_underscore then None
      else if digits =? 0 then None
      else if negb (String.eqb (skip_spaces rest) "") then None
      else if max_str_digits <? digits then None
      else Some value
    | None => None
    end
  end.

Definition int_decimal (text : string) : option Z :=
  match skip_spaces text with
  | String c rest =>
    if Ascii.eqb c "+"%char then int_unsigned rest
    else if Ascii.eqb c "-"%char then Z.opp <$> int_unsigned rest
    else int_unsigned (String c rest)
  | EmptyString => None
  end.

(** ** The region of a cell, as the specification describes it *)

(** The cells without adjacent mine that are linked to [start] by steps to
    a cell sharing an edge or a corner, flagged or not, revealed or not. *)
Inductive zero_region (n : Z) (b : Board) (start : pos) : pos → Prop :=
  | zero_region_start : zero_region n b start start
  | zero_region_step p q :
      zero_region n b start p →
      in_grid n q → adjacent p q → adjacent_mines (cell b q) = 0 →
      zero_region n b start q.

(** ** Outcome *)

(** The text [init_ui] puts into [info_label]. *)
Definition start_text : string := "Be careful!".

(** How [game_over], the text of [info_label] and the revealed mines go
    together in every game that exists at run time ([reachable_outcome]). *)
Record outcome_inv (g : Game) : Prop := {
  out_progress : game_over g = false →
    info_label g = start_text ∧
    ∀ p, in_grid (N g) p → is_mine (cell (board g) p) = true →
         is_revealed (cell (board g) p) = false;
  out_over : game_over g = true →
    (info_label g = won_text ∧ _check_win (N g) (board g) = true ∧
     ∀ p, in_grid (N g) p → is_mine (cell (board g) p) = true →
          is_revealed (cell (board g) p) = false) ∨
    (info_label g = lost_text ∧
     (∃ p, in_grid (N g) p ∧ is_mine (cell (board g) p) = true) ∧
     ∀ p, in_grid (N g) p → is_mine (cell (board g) p) = true →
          is_revealed (cell (board g) p) = true)
}.

(** ** Display *)

Definition wf_buttons (n : Z) (bt : Buttons) : Prop :=
  length bt = Z.to_nat n ∧ Forall (λ btns, length btns = Z.to_nat n) bt.

(** The button at a position given as a pair. *)
Definition button (bt : Buttons) (p : pos) : Button := button_at bt p.1 p.2.

(** Every button shows the face of its cell. *)
Definition synced (n : Z) (b : Board) (bt : Buttons) : Prop :=
  wf_buttons n bt ∧ ∀ p, in_grid n p → button bt p = button_face (cell b p).

(** The game part of the outcome of a call on a window. *)
Definition erase (r : window_result) : result :=
  match r with
  | WReturn w => Return (game w)
  | WIndexError w => IndexError (game w)
  | WOutOfFuel => OutOfFuel
  end.

(** The window a call leaves behind, and the window after the mouse
    presses [events], one after the other. *)
Definition window_after (w : Window) (r : window_result) : Window :=
  match r with
  | WReturn w' => w'
  | WIndexError w' => w'
  | WOutOfFuel => w
  end.

Definition presses (w : Window) (events : list (Z * Z * MouseButton)) : Window :=
  foldl (λ w ev, window_after w (press w ev.1.1 ev.1.2 ev.2)) w events.

(** The window of the 3 x 3 game with its mine in the corner. *)
Definition corner_window : Window := MinesweeperWindow_ui 3 1 [(2, 2)].

(** * Loops, subscription and boards *)

Lemma for_in_nil {A S} (body : A → S → S) s : for_in [] body s = s.
Proof. reflexivity. Qed.

Lemma for_in_cons {A S} x xs (body : A → S → S) s :
  for_in (x :: xs) body s = for_in xs body (body x s).
Proof. reflexivity. Qed.

Lemma for_in_app {A S} xs ys (body : A → S → S) s :
  for_in (xs ++ ys) body s = for_in ys body (for_in xs body s).
Proof. unfold for_in. apply foldl_app. Qed.

Lemma for_in_ext {A S} xs (f g : A → S → S) s :
  (∀ x s, f x s = g x s) → for_in xs f s = for_in xs g s.
Proof.
  intros E. revert s. induction xs as [|x xs IH]; intros s; [reflexivity|].
  by rewrite !for_in_cons, E, IH.
Qed.

Section loops.
Context {A B S : Type}.

(** Two nested loops are one loop over the pairs, in the same order. *)
Lemma for_in_nested xs ys (body : A → B → S → S) s :
  for_in xs (λ x, for_in ys (body x)) s
  = for_in (x ← xs; y ← ys; [(x, y)]) (λ p, body p.1 p.2) s.
Proof.
  revert s. induction xs as [|x xs IH]; intros s; [reflexivity|].
  rewrite for_in_cons, IH, bind_cons, for_in_app. f_equal.
  clear. revert s. induction ys as [|y ys IH]; intros s; [reflexivity|].
  rewrite bind_cons, for_in_cons. simpl app. rewrite for_in_cons. apply IH.
Qed.

(** Loop invariants. *)
Lemma for_in_invariant (I : list A → S → Prop) xs (body : A → S → S) s :
  I [] s →
  (∀ done x s, I done s → x ∈ xs → I (done ++ [x]) (body x s)) →
  I xs (for_in xs body s).
Proof.
  intros H0 Hstep.
  cut (∀ done todo s, done ++ todo = xs → I done s →
         I xs (for_in todo body s)).
  { intros Hc. apply (Hc [] xs); auto. }
  intros done todo. revert done. induction todo as [|x todo IH]; intros done s' E HI.
  - rewrite app_nil_r in E. subst. exact HI.
  - rewrite for_in_cons. apply (IH (done ++ [x])).
    + rewrite <- E, <- app_assoc. reflexivity.
    + apply Hstep; [exact HI|]. rewrite <- E. set_solver.
Qed.
End loops.

Lemma elem_of_pairs {A B} (xs : list A) (ys : list B) x y :
  (x, y) ∈ (x ← xs; y ← ys; [(x, y)]) ↔ x ∈ xs ∧ y ∈ ys.
Proof.
  rewrite list_elem_of_bind. split.
  - intros (x' & (y' & E & Hy)%list_elem_of_bind & Hx).
    apply list_elem_of_ret in E. by simplify_eq.
  - intros [Hx Hy]. exists x. split; [|done].
    apply list_elem_of_bind. exists y. split; [|done]. by apply list_elem_of_ret.
Qed.

Lemma NoDup_pairs {A B} (xs : list A) (ys : list B) :
  NoDup xs → NoDup ys → NoDup (x ← xs; y ← ys; [(x, y)]).
Proof.
  intros Hxs Hys. apply NoDup_bind; [| |done].
  - intros x1 x2 [a b] _ _ H1 H2.
    apply list_elem_of_bind in H1 as (y1 & E1 & _), H2 as (y2 & E2 & _).
    apply list_elem_of_ret in E1, E2. congruence.
  - intros x _. apply NoDup_bind; [| |done].
    + intros y1 y2 p _ _ E1 E2. apply list_elem_of_ret in E1, E2. congruence.
    + intros y _. apply NoDup_singleton.
Qed.

Lemma elem_of_py_range lo hi k : k ∈ py_range lo hi ↔ lo <= k < hi.
Proof. unfold py_range. rewrite elem_of_seqZ. lia. Qed.

Lemma NoDup_py_range lo hi : NoDup (py_range lo hi).
Proof. apply NoDup_seqZ. Qed.

Lemma elem_of_window n r k :
  k ∈ window n r ↔ 0 <= k < n ∧ r - 1 <= k <= r + 1.
Proof. unfold window. rewrite elem_of_py_range. lia. Qed.

Lemma elem_of_all_positions n p : p ∈ all_positions n ↔ in_grid n p.
Proof.
  destruct p as [r c]. unfold all_positions, in_grid.
  rewrite elem_of_pairs, !elem_of_py_range. reflexivity.
Qed.

Lemma NoDup_all_positions n : NoDup (all_positions n).
Proof. apply NoDup_pairs; apply NoDup_py_range. Qed.

Lemma length_all_positions n : 0 <= n → Z.of_nat (length (all_positions n)) = n * n.
Proof.
  intros Hn. unfold all_positions, py_range.
  assert (E : ∀ (xs ys : list Z), length (x ← xs; y ← ys; [(x, y)])
                = (length xs * length ys)%nat).
  { intros xs ys. induction xs as [|x xs IH]; [reflexivity|].
    csimpl. rewrite length_app, IH. f_equal.
    clear. induction ys as [|y ys IH]; [reflexivity|]. csimpl. by rewrite IH. }
  rewrite E, !length_seqZ. lia.
Qed.

Lemma elem_of_neighborhood n r c q :
  q ∈ neighborhood n r c ↔ in_grid n q ∧ adjacent (r, c) q.
Proof.
  destruct q as [r' c']. unfold neighborhood, in_grid, adjacent.
  rewrite elem_of_pairs, !elem_of_window. simpl. lia.
Qed.

Lemma NoDup_neighborhood n r c : NoDup (neighborhood n r c).
Proof. apply NoDup_pairs; apply NoDup_py_range. Qed.

(** ** Subscription *)

Lemma py_index_Some len i k :
  py_index len i = Some k ↔
  Z.of_nat k < len ∧ (i = Z.of_nat k ∨ i = Z.of_nat k - len).
Proof.
  unfold py_index. destruct (Z.ltb_spec i 0).
  - destruct (Z.leb_spec 0 (i + len)), (Z.ltb_spec (i + len) len); simpl;
      split; intros H'; simplify_eq; try lia; f_equal; lia.
  - destruct (Z.leb_spec 0 i), (Z.ltb_spec i len); simpl;
      split; intros H'; simplify_eq; try lia; f_equal; lia.
Qed.

Lemma py_index_None len i : py_index len i = None ↔ ¬ (- len <= i < len).
Proof.
  unfold py_index. destruct (Z.ltb_spec i 0).
  - destruct (Z.leb_spec 0 (i + len)), (Z.ltb_spec (i + len) len); simpl;
      split; intros H'; simplify_eq; try done; lia.
  - destruct (Z.leb_spec 0 i), (Z.ltb_spec i len); simpl;
      split; intros H'; simplify_eq; try done; lia.
Qed.

Lemma py_index_in_range len i : 0 <= i < len → py_index len i = Some (Z.to_nat i).
Proof. intros H. apply py_index_Some. lia. Qed.

Lemma wf_board_lookup n b i :
  wf_board n b → (i < Z.to_nat n)%nat →
  ∃ cells, b !! i = Some cells ∧ length cells = Z.to_nat n.
Proof.
  intros [Hlen Hrows] Hi.
  destruct (lookup_lt_is_Some_2 b i) as [cells Hc]; [lia|].
  exists cells. split; [done|]. eapply Forall_lookup_1 in Hrows; eauto.
Qed.

(** On an N x N board the subscription [board[row][col]] raises exactly
    when an index lies outside [-N, N). *)
Lemma locate_Some n b row col i j :
  wf_board n b →
  locate b row col = Some (i, j) ↔
  (Z.of_nat i < n ∧ (row = Z.of_nat i ∨ row = Z.of_nat i - n)) ∧
  (Z.of_nat j < n ∧ (col = Z.of_nat j ∨ col = Z.of_nat j - n)).
Proof.
  intros Hwf. pose proof Hwf as [Hlen _]. unfold locate. split.
  - intros H.
    destruct (py_index _ row) as [i'|] eqn:Ei; [|done]. simpl in H.
    apply py_index_Some in Ei.
    destruct (wf_board_lookup n b i' Hwf) as (cells & Hc & Hcl); [lia|].
    rewrite Hc in H. simpl in H.
    destruct (py_index _ col) as [j'|] eqn:Ej; [|done]. simpl in H.
    apply py_index_Some in Ej. simplify_eq. lia.
  - intros [Hi Hj].
    assert (Ei : py_index (Z.of_nat (length b)) row = Some i)
      by (apply py_index_Some; lia).
    rewrite Ei. simpl.
    destruct (wf_board_lookup n b i Hwf) as (cells & Hc & Hcl); [lia|].
    rewrite Hc. simpl.
    assert (Ej : py_index (Z.of_nat (length cells)) col = Some j)
      by (apply py_index_Some; lia).
    by rewrite Ej.
Qed.

Lemma locate_None n b row col :
  wf_board n b →
  locate b row col = None ↔ ¬ (- n <= row < n ∧ - n <= col < n).
Proof.
  intros Hwf. split.
  - intros H [Hr Hc].
    assert (∃ i j, locate b row col = Some (i, j)) as (i & j & E); [|congruence].
    destruct (decide (row < 0)), (decide (col < 0)).
    + exists (Z.to_nat (row + n)), (Z.to_nat (col + n)).
      apply (locate_Some n); [done|lia].
    + exists (Z.to_nat (row + n)), (Z.to_nat col).
      apply (locate_Some n); [done|lia].
    + exists (Z.to_nat row), (Z.to_nat (col + n)).
      apply (locate_Some n); [done|lia].
    + exists (Z.to_nat row), (Z.to_nat col).
      apply (locate_Some n); [done|lia].
  - intros H. destruct (locate b row col) as [[i j]|] eqn:E; [|done].
    apply (locate_Some n) in E; [|done]. lia.
Qed.

(** Inside the grid the subscription never raises and nothing wraps. *)
Lemma locate_in_grid n b r c :
  wf_board n b → in_grid n (r, c) →
  locate b r c = Some (Z.to_nat r, Z.to_nat c).
Proof.
  intros Hwf [Hr Hc]. simpl in *. apply (locate_Some n); [done|]. lia.
Qed.

(** So the subscriptions inside the loops of the source, whose indices run
    through [range(self.N)] or through a clipped window, never raise. *)
Lemma loop_subscription_ok n b r c nr nc :
  wf_board n b →
  (nr ∈ py_range 0 n ∨ nr ∈ window n r) →
  (nc ∈ py_range 0 n ∨ nc ∈ window n c) →
  locate b nr nc = Some (Z.to_nat nr, Z.to_nat nc).
Proof.
  intros Hwf Hr Hc. apply (locate_in_grid n); [done|].
  rewrite elem_of_py_range, elem_of_window in Hr, Hc.
  unfold in_grid. simpl. lia.
Qed.

(** The grid position a successful subscription denotes. *)
Lemma locate_grid_pos n b row col i j :
  wf_board n b → locate b row col = Some (i, j) →
  in_grid n (Z.of_nat i, Z.of_nat j) ∧
  locate b (Z.of_nat i) (Z.of_nat j) = Some (i, j).
Proof.
  intros Hwf H. apply (locate_Some n) in H; [|done].
  split; [unfold in_grid; simpl; lia|].
  apply (locate_Some n); [done|]. lia.
Qed.

Lemma cell_at_same_place b r c r' c' :
  locate b r c = locate b r' c' → cell_at b r c = cell_at b r' c'.
Proof. unfold cell_at. by intros ->. Qed.

Lemma update_cell_same_place f b r c r' c' :
  locate b r c = locate b r' c' → update_cell f b r c = update_cell f b r' c'.
Proof. unfold update_cell. by intros ->. Qed.

(** ** Reading after writing *)

Lemma wf_update_cell n f b r c :
  wf_board n b → wf_board n (update_cell f b r c).
Proof.
  intros [Hlen Hrows]. unfold update_cell.
  destruct (locate b r c) as [[i j]|]; [|done]. split.
  - by rewrite length_alter.
  - apply Forall_alter; [done|]. intros cells _ Hc. by rewrite length_alter.
Qed.

Lemma cell_update_eq n f b p :
  wf_board n b → in_grid n p →
  cell (update_cell f b p.1 p.2) p = f (cell b p).
Proof.
  intros Hwf Hp. destruct p as [r c]. unfold cell, cell_at. simpl.
  rewrite (locate_in_grid n) by eauto using wf_update_cell.
  rewrite (locate_in_grid n) by done.
  unfold update_cell. rewrite (locate_in_grid n) by done. simpl.
  destruct Hp as [Hr Hc]. simpl in *.
  destruct (wf_board_lookup n b (Z.to_nat r) Hwf) as (cells & E & Hl); [lia|].
  rewrite list_lookup_alter_eq, E. simpl. rewrite list_lookup_alter_eq.
  destruct (lookup_lt_is_Some_2 cells (Z.to_nat c)) as [x Ex]; [lia|].
  by rewrite Ex.
Qed.

Lemma cell_update_ne n f b p q :
  wf_board n b → in_grid n p → in_grid n q → p ≠ q →
  cell (update_cell f b p.1 p.2) q = cell b q.
Proof.
  intros Hwf Hp Hq Hne. destruct p as [r c], q as [r' c'].
  unfold cell, cell_at. simpl.
  rewrite (locate_in_grid n) by eauto using wf_update_cell.
  rewrite (locate_in_grid n) by done.
  unfold update_cell. rewrite (locate_in_grid n) by done. simpl.
  destruct Hp as [Hr Hc], Hq as [Hr' Hc']. simpl in *.
  destruct (decide (Z.to_nat r = Z.to_nat r')) as [Er|Er].
  - rewrite <- Er, list_lookup_alter_eq.
    destruct (b !! Z.to_nat r) as [cells|]; [|done]. simpl.
    rewrite list_lookup_alter_ne; [done|].
    intros Ec. apply Hne. f_equal; lia.
  - by rewrite list_lookup_alter_ne.
Qed.

Lemma cell_update n f b p q :
  wf_board n b → in_grid n p → in_grid n q →
  cell (update_cell f b p.1 p.2) q = if decide (p = q) then f (cell b p) else cell b q.
Proof.
  intros. case_decide; [subst; by eapply cell_update_eq|by eapply cell_update_ne].
Qed.

Lemma wf_empty_board n : wf_board n (empty_board n).
Proof.
  unfold empty_board. split; [by rewrite length_replicate|].
  apply Forall_replicate. by rewrite length_replicate.
Qed.

Lemma cell_empty_board n p : cell (empty_board n) p = fresh_cell.
Proof.
  unfold cell, cell_at.
  destruct (locate _ _ _) as [[i j]|] eqn:E; [|done]. simpl.
  apply (locate_Some n) in E; [|apply wf_empty_board].
  unfold empty_board.
  rewrite lookup_replicate_2 by lia. simpl. rewrite lookup_replicate_2 by lia. done.
Qed.

(** ** A board is determined by its cells *)

Lemma list_tabulate {A} (d : A) n (l : list A) :
  length l = Z.to_nat n →
  l = (λ k, default d (l !! Z.to_nat k)) <$> py_range 0 n.
Proof.
  intros Hl. apply list_eq. intros i. unfold py_range.
  rewrite list_lookup_fmap, Z.sub_0_r.
  destruct (decide (i < length l)%nat) as [Hi|Hi].
  - rewrite lookup_seqZ_lt by lia. simpl.
    rewrite Z.add_0_l, Nat2Z.id.
    destruct (lookup_lt_is_Some_2 l i Hi) as [x Ex]. by rewrite Ex.
  - rewrite lookup_ge_None_2 by lia. rewrite lookup_seqZ_ge by lia. done.
Qed.

(** The rows of an N x N board, read cell by cell. *)
Lemma board_tabulate n (b : Board) :
  wf_board n b →
  b = (λ r, (λ c, cell_at b r c) <$> py_range 0 n) <$> py_range 0 n.
Proof.
  intros Hwf. pose proof Hwf as [Hlen Hrows].
  rewrite (list_tabulate [] n b Hlen) at 1.
  apply list_fmap_ext. intros _ r Hr%list_elem_of_lookup_2%elem_of_py_range.
  destruct (wf_board_lookup n b (Z.to_nat r) Hwf) as (cells & E & Hl); [lia|].
  rewrite E. simpl. rewrite (list_tabulate fresh_cell n cells Hl) at 1.
  apply list_fmap_ext. intros _ c Hc%list_elem_of_lookup_2%elem_of_py_range.
  unfold cell_at. rewrite (locate_in_grid n) by done. simpl. by rewrite E.
Qed.

Lemma concat_tabulate (b : Board) (rs cs : list Z) :
  concat ((λ r, (λ c, cell_at b r c) <$> cs) <$> rs)
  = cell b <$> (r ← rs; c ← cs; [(r, c)]).
Proof.
  induction rs as [|r rs IH]; [reflexivity|].
  rewrite fmap_cons, bind_cons, fmap_app. simpl concat. rewrite IH. f_equal.
  clear. induction cs as [|c cs IHc]; [reflexivity|].
  rewrite fmap_cons, bind_cons. simpl. by rewrite IHc.
Qed.

(** All the cells of a board, row after row. *)
Lemma concat_board n (b : Board) :
  wf_board n b → concat b = cell b <$> all_positions n.
Proof.
  intros Hwf. rewrite (board_tabulate n b Hwf) at 1. apply concat_tabulate.
Qed.

Lemma length_filter_fmap {A B} (f : A → B) (P : B → Prop)
    `{!∀ y, Decision (P y)} (l : list A) :
  length (filter P (f <$> l)) = length (filter (λ x, P (f x)) l).
Proof.
  induction l as [|x l IH]; [reflexivity|].
  rewrite fmap_cons, !filter_cons. destruct (decide (P (f x))); simpl; by rewrite IH.
Qed.

Lemma mine_count_positions n b :
  wf_board n b →
  mine_count b
  = Z.of_nat (length (filter (λ p, is_mine (cell b p) = true) (all_positions n))).
Proof.
  intros Hwf. unfold mine_count.
  by rewrite (concat_board n b Hwf), length_filter_fmap.
Qed.

Lemma length_filter_ext {A} (P Q : A → Prop)
    `{!∀ x, Decision (P x)} `{!∀ x, Decision (Q x)} (l : list A) :
  (∀ x, x ∈ l → P x ↔ Q x) → length (filter P l) = length (filter Q l).
Proof.
  induction l as [|x l IH]; intros Hext; [reflexivity|].
  pose proof (Hext x (list_elem_of_here x l)) as Hx.
  assert (IH' : length (filter P l) = length (filter Q l)).
  { apply IH. intros y Hy. apply Hext. by apply list_elem_of_further. }
  rewrite !filter_cons.
  destruct (decide (P x)), (decide (Q x)); simpl; rewrite ?IH'; tauto.
Qed.

(** Boards with the same mines have the same number of mines. *)
Lemma mine_count_ext n b b' :
  wf_board n b → wf_board n b' →
  (∀ p, in_grid n p → is_mine (cell b' p) = is_mine (cell b p)) →
  mine_count b' = mine_count b.
Proof.
  intros Hwf Hwf' H.
  rewrite (mine_count_positions n b), (mine_count_positions n b') by done.
  f_equal. apply length_filter_ext.
  intros p Hp%elem_of_all_positions. by rewrite H.
Qed.

(** ** Mine placement *)

Lemma place_mines_cons r c mines b :
  _place_mines ((r, c) :: mines) b
  = _place_mines mines (update_cell (set_is_mine true) b r c).
Proof. reflexivity. Qed.

Lemma wf_place_mines n mines b : wf_board n b → wf_board n (_place_mines mines b).
Proof.
  revert b. induction mines as [|[r c] mines IH]; intros b Hwf; [done|].
  apply IH. by apply wf_update_cell.
Qed.

Lemma cell_place_mines n mines b q :
  wf_board n b → mines ⊆ all_positions n → in_grid n q →
  cell (_place_mines mines b) q
  = if decide (q ∈ mines) then set_is_mine true (cell b q) else cell b q.
Proof.
  revert b. induction mines as [|[r c] mines IH]; intros b Hwf Hsub Hq.
  { rewrite decide_False by set_solver. done. }
  rewrite place_mines_cons.
  assert (Hp : in_grid n (r, c)) by (apply elem_of_all_positions, Hsub; set_solver).
  rewrite IH; [|by apply wf_update_cell|set_solver|done].
  rewrite (cell_update n _ b (r, c) q) by done.
  destruct (decide ((r, c) = q)) as [<-|Hne].
  - rewrite (decide_True (P := (r, c) ∈ (r, c) :: mines)) by apply list_elem_of_here.
    by case_decide.
  - destruct (decide (q ∈ mines)) as [Hq'|Hq'].
    + rewrite decide_True; [done|]. by apply list_elem_of_further.
    + rewrite decide_False; [done|]. intros [?|?]%elem_of_cons; congruence.
Qed.

(** [_place_mines] marks exactly as many cells as positions were drawn. *)
Lemma mine_count_place_mines n m mines :
  is_sample (all_positions n) m mines →
  mine_count (_place_mines mines (empty_board n)) = m.
Proof.
  intros (Hnd & Hsub & Hlen).
  rewrite (mine_count_positions n) by apply wf_place_mines, wf_empty_board.
  rewrite <- Hlen. f_equal. apply Permutation_length, NoDup_Permutation.
  - apply NoDup_filter, NoDup_all_positions.
  - done.
  - intros p. rewrite list_elem_of_filter, elem_of_all_positions. split.
    + intros [Hm Hp]. revert Hm.
      rewrite (cell_place_mines n) by auto using wf_empty_board.
      rewrite cell_empty_board. by case_decide.
    + intros Hp. assert (in_grid n p) by by apply elem_of_all_positions, Hsub.
      split; [|done].
      rewrite (cell_place_mines n) by auto using wf_empty_board.
      by rewrite decide_True.
Qed.

(** ** Adjacency pass *)

Lemma count_loop (b : Board) (l : list pos) (a : Z) :
  for_in l (λ p count, if is_mine (cell_at b p.1 p.2) then count + 1 else count) a
  = a + Z.of_nat (length (filter (λ q, is_mine (cell b q) = true) l)).
Proof.
  revert a. induction l as [|p l IH]; intros a; [simpl; lia|].
  rewrite for_in_cons, IH, filter_cons.
  change (cell_at b p.1 p.2) with (cell b p).
  destruct (is_mine (cell b p)) eqn:E.
  - rewrite decide_True by done. simpl length. lia.
  - rewrite decide_False by done. lia.
Qed.

(** The counting loops count the mines of the clipped window. *)
Lemma count_window_mines_filter n b r c :
  count_window_mines n b r c
  = Z.of_nat (length (filter (λ q, is_mine (cell b q) = true) (neighborhood n r c))).
Proof.
  unfold count_window_mines.
  rewrite (for_in_nested _ _
    (λ nr nc count, if is_mine (cell_at b nr nc) then count + 1 else count)).
  by rewrite count_loop.
Qed.

Lemma count_window_mines_ext n b b' r c :
  (∀ p, in_grid n p → is_mine (cell b' p) = is_mine (cell b p)) →
  count_window_mines n b' r c = count_window_mines n b r c.
Proof.
  intros H. rewrite !count_window_mines_filter. f_equal.
  apply length_filter_ext. intros q [Hq _]%elem_of_neighborhood. by rewrite H.
Qed.

Lemma calculate_adjacency_spec n b :
  wf_board n b →
  wf_board n (_calculate_adjacency n b) ∧
  ∀ q, in_grid n q →
    cell (_calculate_adjacency n b) q
    = set_adjacent_mines (adjacency_value n b q) (cell b q).
Proof.
  intros Hwf. unfold _calculate_adjacency.
  rewrite (for_in_nested _ _ (λ r c b,
    if is_mine (cell_at b r c)
    then update_cell (set_adjacent_mines (-1)) b r c
    else update_cell (set_adjacent_mines (count_window_mines n b r c)) b r c)).
  fold (all_positions n).
  pose (I := λ (done : list pos) (s : Board),
    wf_board n s ∧ ∀ q, in_grid n q →
      cell s q = if decide (q ∈ done)
                 then set_adjacent_mines (adjacency_value n b q) (cell b q)
                 else cell b q).
  cut (I (all_positions n) (for_in (all_positions n) (λ p b,
    if is_mine (cell_at b p.1 p.2)
    then update_cell (set_adjacent_mines (-1)) b p.1 p.2
    else update_cell (set_adjacent_mines (count_window_mines n b p.1 p.2)) b p.1 p.2) b)).
  { intros [Hwf' Hcells]. split; [done|]. intros q Hq.
    rewrite Hcells by done. rewrite decide_True; [done|].
    by apply elem_of_all_positions. }
  apply for_in_invariant.
  - split; [done|]. intros q Hq. rewrite decide_False; [done|]. apply not_elem_of_nil.
  - intros done x s [Hwfs Hs] Hx%elem_of_all_positions.
    assert (Hmine : ∀ p, in_grid n p → is_mine (cell s p) = is_mine (cell b p)).
    { intros p Hp. rewrite Hs by done. by case_decide. }
    assert (E : (if is_mine (cell_at s x.1 x.2)
        then update_cell (set_adjacent_mines (-1)) s x.1 x.2
        else update_cell (set_adjacent_mines (count_window_mines n s x.1 x.2)) s x.1 x.2)
        = update_cell (set_adjacent_mines (adjacency_value n b x)) s x.1 x.2).
    { unfold adjacency_value. rewrite <- (Hmine x Hx). unfold cell.
      destruct (is_mine (cell_at s x.1 x.2)); [done|].
      by rewrite (count_window_mines_ext n b s). }
    rewrite E. split; [by apply wf_update_cell|].
    intros q Hq. rewrite (cell_update n) by done.
    rewrite !Hs by done.
    destruct (decide (x = q)) as [->|Hne].
    + rewrite (decide_True (P := q ∈ done ++ [q])) by (apply elem_of_app; right; apply list_elem_of_here).
      by case_decide.
    + destruct (decide (q ∈ done)) as [Hd|Hd].
      * rewrite decide_True; [done|]. apply elem_of_app. by left.
      * rewrite decide_False; [done|].
        intros [?|Hq']%elem_of_app; [done|].
        apply list_elem_of_singleton in Hq'. congruence.
Qed.

(** ** Hidden cells *)

Lemma openable_fields b q :
  openable b q ↔
  is_revealed (cell b q) = false ∧ is_flagged (cell b q) = false
  ∧ is_mine (cell b q) = false.
Proof.
  unfold openable, openableb.
  destruct (is_revealed _), (is_flagged _), (is_mine _); simpl; intuition congruence.
Qed.

Lemma length_filter_remove {A} (P Q : A → Prop)
    `{!∀ x, Decision (P x)} `{!∀ x, Decision (Q x)} (l : list A) (x : A) :
  NoDup l → x ∈ l → P x → ¬ Q x →
  (∀ y, y ∈ l → y ≠ x → P y ↔ Q y) →
  length (filter P l) = S (length (filter Q l)).
Proof.
  intros Hnd Hx HP HQ Hext. induction Hnd as [|y l Hy Hnd IH].
  { by apply elem_of_nil in Hx. }
  rewrite !filter_cons. apply elem_of_cons in Hx as [<-|Hx].
  - rewrite decide_True, decide_False by done. simpl. f_equal.
    apply length_filter_ext. intros z Hz. apply Hext.
    + by apply list_elem_of_further.
    + intros ->. done.
  - assert (y ≠ x) by (intros ->; done).
    assert (P y ↔ Q y) by (apply Hext; [apply list_elem_of_here|done]).
    assert (IH' : length (filter P l) = S (length (filter Q l))).
    { apply IH; [done|]. intros z Hz. apply Hext. by apply list_elem_of_further. }
    destruct (decide (P y)), (decide (Q y)); simpl; rewrite ?IH'; tauto.
Qed.

Lemma hidden_count_reveal n b p :
  wf_board n b → in_grid n p → is_revealed (cell b p) = false →
  hidden_count n b = S (hidden_count n (update_cell (set_is_revealed true) b p.1 p.2)).
Proof.
  intros Hwf Hp Hh. unfold hidden_count.
  apply (length_filter_remove _ _ _ p).
  - apply NoDup_all_positions.
  - by apply elem_of_all_positions.
  - done.
  - by rewrite (cell_update_eq n).
  - intros q Hq%elem_of_all_positions Hne. by rewrite (cell_update_ne n).
Qed.

Lemma hidden_count_bound n b :
  0 <= n → (hidden_count n b ≤ Z.to_nat (n * n))%nat.
Proof.
  intros Hn. unfold hidden_count.
  etrans; [apply length_filter|]. pose proof (length_all_positions n Hn). lia.
Qed.

Lemma hidden_count_revealed n b p :
  0 <= n → in_grid n p → is_revealed (cell b p) = true →
  (hidden_count n b < Z.to_nat (n * n))%nat.
Proof.
  intros Hn Hp Hr. unfold hidden_count.
  pose proof (length_all_positions n Hn).
  assert (length (filter (λ p, is_revealed (cell b p) = false) (all_positions n))
          < length (all_positions n))%nat; [|lia].
  apply (length_filter_lt _ _ p); [by apply elem_of_all_positions|congruence].
Qed.

(** ** One pass over the window *)

Lemma flood_visit_flat n r c s :
  flood_visit n r c s = for_in (neighborhood n r c) flood_open s.
Proof.
  unfold flood_visit, neighborhood.
  rewrite (for_in_nested _ _ (λ nr nc '(b, stack),
      let neighbor := cell_at b nr nc in
      if negb (is_revealed neighbor) && negb (is_flagged neighbor)
         && negb (is_mine neighbor)
      then
        let b' := update_cell (set_is_revealed true) b nr nc in
        if adjacent_mines neighbor =? 0 then (b', (nr, nc) :: stack)
        else (b', stack)
      else (b, stack))).
  apply for_in_ext. by intros [nr nc] [b stack].
Qed.

Lemma flood_open_step b st p :
  flood_open p (b, st)
  = if openableb (cell b p)
    then (update_cell (set_is_revealed true) b p.1 p.2,
          (if adjacent_mines (cell b p) =? 0 then [p] else []) ++ st)
    else (b, st).
Proof.
  unfold flood_open.
  destruct (openableb _); [|done]. by destruct (_ =? 0).
Qed.

(** The effect of the window loops on the board and on the work list, for
    any list [l] of distinct grid positions that the loops run through. *)
Lemma flood_open_loop n l b st :
  wf_board n b → NoDup l → Forall (in_grid n) l →
  ∃ b' pushed,
    for_in l flood_open (b, st) = (b', pushed ++ st) ∧
    wf_board n b' ∧
    (∀ q, in_grid n q →
       cell b' q = if decide (q ∈ l ∧ openable b q)
                   then set_is_revealed true (cell b q) else cell b q) ∧
    NoDup pushed ∧
    (∀ q, q ∈ pushed ↔ q ∈ l ∧ openable b q ∧ adjacent_mines (cell b q) = 0) ∧
    (hidden_count n b' + length pushed ≤ hidden_count n b)%nat.
Proof.
  revert b st. induction l as [|p l IH]; intros b st Hwf Hnd Hin.
  { exists b, []. split_and!; try done.
    - intros q. split; [intros H|intros [H _]]; by apply elem_of_nil in H.
    - simpl. lia. }
  apply NoDup_cons in Hnd as [Hp Hnd]. apply Forall_cons in Hin as [Hpg Hin].
  rewrite for_in_cons, flood_open_step.
  destruct (openableb (cell b p)) eqn:Eo.
  - set (b1 := update_cell (set_is_revealed true) b p.1 p.2).
    set (here := if adjacent_mines (cell b p) =? 0 then [p] else []).
    assert (Hwf1 : wf_board n b1) by by apply wf_update_cell.
    assert (Hsame : ∀ q, in_grid n q → q ≠ p → cell b1 q = cell b q).
    { intros q Hq Hne. by apply (cell_update_ne n). }
    assert (Hb1p : cell b1 p = set_is_revealed true (cell b p))
      by by apply (cell_update_eq n).
    assert (Hl : ∀ q, q ∈ l → in_grid n q ∧ q ≠ p).
    { intros q Hq. split; [by eapply Forall_forall in Hin|]. by intros ->. }
    assert (Hop : ∀ q, q ∈ l → openable b1 q ↔ openable b q).
    { intros q [Hq Hne]%Hl. unfold openable. by rewrite Hsame. }
    assert (Hhid : hidden_count n b = S (hidden_count n b1)).
    { apply hidden_count_reveal; [done..|].
      by apply (openable_fields b p) in Eo as (? & _). }
    assert (Hhere : ∀ q, q ∈ here ↔ q = p ∧ adjacent_mines (cell b p) = 0).
    { intros q. unfold here. destruct (Z.eqb_spec (adjacent_mines (cell b p)) 0).
      - rewrite list_elem_of_singleton. tauto.
      - split; [intros H; by apply elem_of_nil in H|tauto]. }
    destruct (IH b1 (here ++ st) Hwf1 Hnd Hin)
      as (b' & pushed & E & Hwf' & Hcells & Hnd' & Hpushed & Hcount).
    exists b', (pushed ++ here). split_and!.
    + rewrite E. by rewrite <- app_assoc.
    + done.
    + intros q Hq. rewrite Hcells by done.
      destruct (decide (q = p)) as [->|Hne].
      * rewrite decide_False by (intros [? _]; done).
        rewrite Hb1p, decide_True; [done|].
        split; [apply list_elem_of_here|done].
      * rewrite Hsame by done.
        destruct (decide (q ∈ l ∧ openable b1 q)) as [[Hql Ho]|Hn];
          destruct (decide (q ∈ p :: l ∧ openable b q)) as [[Hql' Ho']|Hn'];
          try done; exfalso.
        -- apply Hn'. split; [by apply list_elem_of_further|by apply Hop].
        -- apply Hn. apply elem_of_cons in Hql' as [?|Hql']; [done|].
           split; [done|by apply Hop].
    + apply NoDup_app. split_and!; [done| |].
      * intros q [Hq _]%Hpushed [-> _]%Hhere. done.
      * unfold here. destruct (_ =? 0); [apply NoDup_singleton|constructor].
    + intros q. rewrite elem_of_app, Hpushed, Hhere, elem_of_cons. split.
      * intros [(Hq & Ho & Hz)|[-> Hz]].
        -- split; [by right|]. apply Hl in Hq as Hq'. destruct Hq'.
           split; [by apply Hop|]. by rewrite <- Hsame.
        -- split; [by left|done].
      * intros ([->|Hq] & Ho & Hz); [by right|].
        left. apply Hl in Hq as Hq'. destruct Hq'.
        split; [done|]. split; [by apply Hop|]. by rewrite Hsame.
    + rewrite length_app.
      assert (length here ≤ 1)%nat by (unfold here; destruct (_ =? 0); simpl; lia).
      lia.
  - destruct (IH b st Hwf Hnd Hin)
      as (b' & pushed & E & Hwf' & Hcells & Hnd' & Hpushed & Hcount).
    assert (Hno : ¬ openable b p) by (unfold openable; congruence).
    exists b', pushed. split_and!; try done.
    + intros q Hq. rewrite Hcells by done.
      destruct (decide (q ∈ l ∧ openable b q)) as [[Hql Ho]|Hn];
        destruct (decide (q ∈ p :: l ∧ openable b q)) as [[Hql' Ho']|Hn'];
        try done; exfalso.
      * apply Hn'. split; [by apply list_elem_of_further|done].
      * apply Hn. apply elem_of_cons in Hql' as [->|Hql']; [done|]. done.
    + intros q. rewrite Hpushed, elem_of_cons. split.
      * intros (? & ? & ?). split; [by right|done].
      * intros ([->|?] & ? & ?); [done|]. done.
Qed.

(** One iteration of the [while] loop, after the pop of [(r, c)]. *)
Lemma flood_visit_spec n r c b st :
  wf_board n b →
  ∃ b' pushed,
    flood_visit n r c (b, st) = (b', pushed ++ st) ∧
    wf_board n b' ∧
    (∀ q, in_grid n q →
       cell b' q = if decide (adjacent (r, c) q ∧ openable b q)
                   then set_is_revealed true (cell b q) else cell b q) ∧
    NoDup pushed ∧
    (∀ q, q ∈ pushed ↔
       in_grid n q ∧ adjacent (r, c) q ∧ openable b q
       ∧ adjacent_mines (cell b q) = 0) ∧
    (hidden_count n b' + length pushed ≤ hidden_count n b)%nat.
Proof.
  intros Hwf. rewrite flood_visit_flat.
  destruct (flood_open_loop n (neighborhood n r c) b st Hwf)
    as (b' & pushed & E & Hwf' & Hcells & Hnd & Hpushed & Hcount).
  { apply NoDup_neighborhood. }
  { apply Forall_forall. by intros q [? _]%elem_of_neighborhood. }
  exists b', pushed. split_and!; try done.
  - intros q Hq. rewrite Hcells by done.
    destruct (decide (q ∈ neighborhood n r c ∧ openable b q)) as [[Hql Ho]|Hn];
      destruct (decide (adjacent (r, c) q ∧ openable b q)) as [[Hql' Ho']|Hn'];
      try done; exfalso.
    + apply Hn'. by apply elem_of_neighborhood in Hql as [_ ?].
    + apply Hn. split; [by apply elem_of_neighborhood|done].
  - intros q. rewrite Hpushed, elem_of_neighborhood. tauto.
Qed.

(** ** The work-list loop *)

(** The loop ends as soon as the fuel covers the work list and the hidden
    cells: every pop removes one entry, and every push reveals a cell. *)
Lemma flood_loop_terminates n fuel stack b :
  wf_board n b →
  (length stack + hidden_count n b ≤ fuel)%nat →
  is_Some (flood_loop fuel n stack b).
Proof.
  revert stack b. induction fuel as [|fuel IH]; intros stack b Hwf Hfuel.
  { destruct stack; [by eexists|simpl in Hfuel; lia]. }
  destruct stack as [|[r c] rest]; [by eexists|]. simpl.
  destruct (flood_visit_spec n r c b rest Hwf)
    as (b' & pushed & -> & Hwf' & _ & _ & _ & Hcount).
  destruct (IH (pushed ++ rest) b' Hwf') as [[b'' popped] ->].
  { rewrite length_app. simpl in Hfuel. lia. }
  by eexists.
Qed.

(** More fuel does not change the result. *)
Lemma flood_loop_fuel_mono n fuel fuel' stack b res :
  flood_loop fuel n stack b = Some res → (fuel ≤ fuel')%nat →
  flood_loop fuel' n stack b = Some res.
Proof.
  revert fuel' stack b res.
  induction fuel as [|fuel IH]; intros fuel' stack b res H Hle.
  { destruct stack as [|[r c] rest]; [|done]. by destruct fuel'. }
  destruct stack as [|[r c] rest]; [by destruct fuel'|].
  destruct fuel' as [|fuel']; [lia|]. simpl in *.
  destruct (flood_visit n r c (b, rest)) as [b' stack'].
  destruct (flood_loop fuel n stack' b') as [[b'' popped]|] eqn:E; [|done].
  rewrite (IH fuel' _ _ _ E) by lia. done.
Qed.

(** The fuel that is used is the number of pops. *)
Lemma flood_loop_fuel_used n fuel stack b b' popped :
  flood_loop fuel n stack b = Some (b', popped) →
  flood_loop (length popped) n stack b = Some (b', popped).
Proof.
  revert stack b b' popped.
  induction fuel as [|fuel IH]; intros stack b b' popped H.
  { destruct stack as [|[r c] rest]; [|done]. simpl in H. by simplify_eq. }
  destruct stack as [|[r c] rest]; [simpl in H; by simplify_eq|]. simpl in *.
  destruct (flood_visit n r c (b, rest)) as [b1 stack1] eqn:Ev.
  destruct (flood_loop fuel n stack1 b1) as [[b2 popped2]|] eqn:E; [|done].
  simpl in H. simplify_eq. simpl. by rewrite Ev, (IH _ _ _ _ E).
Qed.

(** Invariants of the loop: [I b stack popped] relates the board, the work
    list and the positions popped so far. *)
Lemma flood_loop_rule n (I : Board → list pos → list pos → Prop) :
  (∀ b r c rest popped b' stack',
     I b ((r, c) :: rest) popped →
     flood_visit n r c (b, rest) = (b', stack') →
     I b' stack' (popped ++ [(r, c)])) →
  ∀ fuel stack b popped b' popped',
    I b stack popped →
    flood_loop fuel n stack b = Some (b', popped') →
    I b' [] (popped ++ popped').
Proof.
  intros Hstep. induction fuel as [|fuel IH]; intros stack b popped b' popped' HI H.
  { destruct stack as [|[r c] rest]; [|done]. simpl in H. simplify_eq.
    by rewrite app_nil_r. }
  destruct stack as [|[r c] rest].
  { simpl in H. simplify_eq. by rewrite app_nil_r. }
  simpl in H.
  destruct (flood_visit n r c (b, rest)) as [b1 stack1] eqn:Ev.
  destruct (flood_loop fuel n stack1 b1) as [[b2 popped2]|] eqn:E; [|done].
  simpl in H. simplify_eq.
  replace (popped ++ (r, c) :: popped2) with ((popped ++ [(r, c)]) ++ popped2)
    by by rewrite <- app_assoc.
  eapply IH; [|done]. eapply Hstep; done.
Qed.

(** ** What the flood fill reveals *)

Lemma region_inv_step n b1 start b r c rest popped b' stack' :
  region_inv n b1 start b ((r, c) :: rest) popped →
  flood_visit n r c (b, rest) = (b', stack') →
  region_inv n b1 start b' stack' (popped ++ [(r, c)]).
Proof.
  intros (Hwf & HA & HB & HC) Ev.
  destruct (flood_visit_spec n r c b rest Hwf)
    as (b2 & pushed & E & Hwf' & Hcells & _ & Hpushed & _).
  rewrite Ev in E. simplify_eq.
  assert (HA1 : ∀ q, in_grid n q → openable b q → cell b q = cell b1 q).
  { intros q Hq Ho. destruct (HA q Hq) as [?|[_ Hc]]; [done|].
    apply openable_fields in Ho as (Hr & _). by rewrite Hc in Hr. }
  assert (HA2 : ∀ q, in_grid n q → openable b1 q → ¬ openable b q →
                     is_revealed (cell b q) = true).
  { intros q Hq Ho1 Hno. destruct (HA q Hq) as [Hc|[_ Hc]].
    - exfalso. apply Hno. unfold openable. by rewrite Hc.
    - by rewrite Hc. }
  assert (Hmono : ∀ q, in_grid n q → is_revealed (cell b q) = true →
                       is_revealed (cell b2 q) = true).
  { intros q Hq Hr. rewrite Hcells by done. by case_decide. }
  assert (Hregion : open_region n b1 start (r, c)) by (apply HB, list_elem_of_here).
  assert (Hdone : processed n b1 b2 (r, c)).
  { intros q Hq Hadj Ho1. destruct (decide (openable b q)) as [Ho|Hno].
    - rewrite Hcells by done. by rewrite decide_True.
    - by apply Hmono, HA2. }
  split_and!.
  - done.
  - intros q Hq. rewrite Hcells by done.
    destruct (decide (adjacent (r, c) q ∧ openable b q)) as [[Hadj Ho]|_].
    + right. rewrite (HA1 q) by done. split; [|done]. split.
      * unfold openable. by rewrite <- (HA1 q).
      * by exists (r, c).
    + by apply HA.
  - intros p [Hp|Hp]%elem_of_app.
    + apply Hpushed in Hp as (Hg & Hadj & Ho & Hz).
      rewrite (HA1 p) in Hz by done.
      apply (open_region_step n b1 start (r, c) p); try done.
      unfold openable. by rewrite <- (HA1 p).
    + by apply HB, list_elem_of_further.
  - assert (Hold : ∀ p, discovered n b1 start b p →
                       p ∈ pushed ++ rest ∨ processed n b1 b2 p).
    { intros p [[-> | Hp]%elem_of_cons | Hp]%HC.
      - by right.
      - left. apply elem_of_app. by right.
      - right. intros q Hq Hadj Ho1. by apply Hmono, Hp. }
    intros p [->|(Hg & Ho1 & Hz & Hr)].
    + apply Hold. by left.
    + destruct (is_revealed (cell b p)) eqn:Hrb.
      * apply Hold. by right.
      * left. apply elem_of_app. left. apply Hpushed.
        rewrite Hcells in Hr by done.
        destruct (decide (adjacent (r, c) p ∧ openable b p)) as [[Hadj Ho]|_];
          [|congruence].
        split_and!; try done. by rewrite (HA1 p).
Qed.

(** After the loop, the cells opened are exactly the targets. *)
Lemma flood_loop_region n b1 start fuel b' popped :
  wf_board n b1 →
  flood_loop fuel n [start] b1 = Some (b', popped) →
  wf_board n b' ∧
  ∀ q, in_grid n q →
    (flood_target n b1 start q → cell b' q = set_is_revealed true (cell b1 q)) ∧
    (cell b' q = cell b1 q ∨
     (flood_target n b1 start q ∧ cell b' q = set_is_revealed true (cell b1 q))).
Proof.
  intros Hwf1 H.
  assert (Hinit : region_inv n b1 start b1 [start] []).
  { split_and!; try done.
    - intros q _. by left.
    - intros p ->%list_elem_of_singleton. constructor.
    - intros p [->|(Hg & Ho & _ & Hr)]; [left; apply list_elem_of_here|].
      apply openable_fields in Ho as (Hr' & _). congruence. }
  destruct (flood_loop_rule n (region_inv n b1 start)
              (region_inv_step n b1 start) _ _ _ _ _ _ Hinit H)
    as (Hwf & HA & _ & HC).
  split; [done|].
  assert (Hall : ∀ p, open_region n b1 start p → processed n b1 b' p).
  { assert (∀ p, open_region n b1 start p → discovered n b1 start b' p) as Hd.
    { induction 1 as [|p q Hp IH Hq Hadj Ho Hz]; [by left|].
      right. split_and!; try done.
      destruct (HC p IH) as [Hin|Hpr]; [by apply elem_of_nil in Hin|].
      by apply Hpr. }
    intros p Hp%Hd. destruct (HC p Hp) as [Hin|?]; [by apply elem_of_nil in Hin|done]. }
  intros q Hq. split.
  - intros [Ho (p & Hp & Hadj)].
    assert (Hr : is_revealed (cell b' q) = true) by by apply (Hall p).
    destruct (HA q Hq) as [Hc|[_ Hc]]; [|done].
    apply openable_fields in Ho as (Hr' & _). rewrite Hc in Hr. congruence.
  - by apply HA.
Qed.

(** ** What the flood fill visits *)

Lemma trace_inv_step n b1 start b r c rest popped b' stack' :
  trace_inv n b1 start b ((r, c) :: rest) popped →
  flood_visit n r c (b, rest) = (b', stack') →
  trace_inv n b1 start b' stack' (popped ++ [(r, c)]).
Proof.
  intros (Hwf & Hnd & Horigin & Hrev & Hmono1 & Hcount) Ev.
  destruct (flood_visit_spec n r c b rest Hwf)
    as (b2 & pushed & E & Hwf' & Hcells & Hndp & Hpushed & Hcnt).
  rewrite Ev in E. simplify_eq.
  assert (Hperm : (popped ++ [(r, c)]) ++ pushed ++ rest
                  ≡ₚ pushed ++ popped ++ (r, c) :: rest).
  { rewrite <- (app_assoc popped). simpl.
    rewrite (Permutation_app_swap_app pushed popped).
    apply Permutation_app_head, Permutation_middle. }
  assert (Hmono : ∀ q, in_grid n q → is_revealed (cell b q) = true →
                       is_revealed (cell b2 q) = true).
  { intros q Hq Hr. rewrite Hcells by done. by case_decide. }
  assert (Hnew : ∀ q, q ∈ pushed →
            in_grid n q ∧ is_revealed (cell b q) = false
            ∧ is_revealed (cell b2 q) = true).
  { intros q (Hg & Hadj & Ho & _)%Hpushed. split; [done|]. split.
    - by apply openable_fields in Ho as (? & _).
    - rewrite Hcells by done. by rewrite decide_True. }
  split_and!.
  - done.
  - rewrite Hperm. apply NoDup_app. split_and!; [done| |done].
    intros q (Hg & Hh & _)%Hnew Hold. apply Hrev in Hold; [congruence|done].
  - intros p. rewrite Hperm, elem_of_app. intros [Hp|Hp]; [|by apply Horigin].
    right. apply Hnew in Hp as (Hg & Hh & _). split; [done|].
    destruct (is_revealed (cell b1 p)) eqn:E1; [|done].
    apply Hmono1 in E1; [congruence|done].
  - intros p. rewrite Hperm, elem_of_app. intros [Hp|Hp] Hg.
    + by apply Hnew in Hp as (_ & _ & ?).
    + by apply Hmono, Hrev.
  - intros q Hq Hr. by apply Hmono, Hmono1.
  - rewrite !length_app. simpl in *. lia.
Qed.

(** The positions popped by the loop are distinct; each one other than
    the first was hidden when the loop began and is revealed when it
    ends; and there are no more of them than hidden cells, plus one. *)
Lemma flood_loop_trace n b1 start fuel b' popped :
  wf_board n b1 →
  (in_grid n start → is_revealed (cell b1 start) = true) →
  flood_loop fuel n [start] b1 = Some (b', popped) →
  NoDup popped ∧
  (∀ p, p ∈ popped →
     p = start ∨
     (in_grid n p ∧ is_revealed (cell b1 p) = false
      ∧ is_revealed (cell b' p) = true)) ∧
  (length popped ≤ S (hidden_count n b1))%nat.
Proof.
  intros Hwf1 Hstart H.
  assert (Hinit : trace_inv n b1 start b1 [start] []).
  { split_and!; simpl; try done.
    - apply NoDup_singleton.
    - intros p ->%list_elem_of_singleton. by left.
    - intros p ->%list_elem_of_singleton. done. }
  destruct (flood_loop_rule n (trace_inv n b1 start)
              (trace_inv_step n b1 start) _ _ _ _ _ _ Hinit H)
    as (Hwf & Hnd & Horigin & Hrev & _ & Hcount).
  simpl in *. rewrite app_nil_r in *. split_and!.
  - done.
  - intros p Hp. destruct (Horigin p Hp) as [?|[Hg Hh]]; [by left|].
    right. split_and!; try done. by apply Hrev.
  - lia.
Qed.

(** ** Win check and loss display *)

Lemma check_win_spec n b :
  _check_win n b = true ↔
  ∀ p, in_grid n p → is_mine (cell b p) = false → is_revealed (cell b p) = true.
Proof.
  unfold _check_win. rewrite forallb_forall. split.
  - intros H [r c] [Hr Hc] Hm. simpl in *.
    specialize (H r). rewrite forallb_forall in H.
    assert (In r (py_range 0 n)) as Hr' by by apply list_elem_of_In, elem_of_py_range.
    assert (In c (py_range 0 n)) as Hc' by by apply list_elem_of_In, elem_of_py_range.
    specialize (H Hr' c Hc'). unfold cell in *. simpl in *.
    rewrite Hm in H. by destruct (is_revealed _).
  - intros H r Hr%list_elem_of_In%elem_of_py_range.
    apply forallb_forall. intros c Hc%list_elem_of_In%elem_of_py_range.
    specialize (H (r, c)). unfold cell, in_grid in H. simpl in *.
    destruct (is_mine _); [done|]. by rewrite H.
Qed.

Lemma check_win_ext n b b' :
  (∀ p, in_grid n p → is_mine (cell b' p) = is_mine (cell b p)
                      ∧ is_revealed (cell b' p) = is_revealed (cell b p)) →
  _check_win n b' = _check_win n b.
Proof.
  intros H. apply eq_true_iff_eq. rewrite !check_win_spec.
  split; intros Hw p Hp; destruct (H p Hp) as [Em Er].
  - rewrite <- Em, <- Er. by apply Hw.
  - rewrite Em, Er. by apply Hw.
Qed.

Lemma show_all_mines_spec n b :
  wf_board n b →
  wf_board n (_show_all_mines n b) ∧
  ∀ q, in_grid n q →
    cell (_show_all_mines n b) q
    = if is_mine (cell b q) then set_is_revealed true (cell b q) else cell b q.
Proof.
  intros Hwf. unfold _show_all_mines.
  rewrite (for_in_nested _ _ (λ r c b,
    if is_mine (cell_at b r c)
    then update_cell (set_is_revealed true) b r c else b)).
  fold (all_positions n).
  pose (I := λ (done : list pos) (s : Board),
    wf_board n s ∧ ∀ q, in_grid n q →
      cell s q = if decide (q ∈ done)
                 then (if is_mine (cell b q)
                       then set_is_revealed true (cell b q) else cell b q)
                 else cell b q).
  cut (I (all_positions n) (for_in (all_positions n) (λ p b,
    if is_mine (cell_at b p.1 p.2)
    then update_cell (set_is_revealed true) b p.1 p.2 else b) b)).
  { intros [Hwf' Hcells]. split; [done|]. intros q Hq.
    rewrite Hcells by done. rewrite decide_True; [done|].
    by apply elem_of_all_positions. }
  apply for_in_invariant.
  - split; [done|]. intros q Hq. rewrite decide_False; [done|]. apply not_elem_of_nil.
  - intros done x s [Hwfs Hs] Hx%elem_of_all_positions.
    assert (Hmine : is_mine (cell s x) = is_mine (cell b x)).
    { rewrite Hs by done. case_decide; [|done]. by destruct (is_mine (cell b x)) eqn:E. }
    assert (Hin : ∀ q, q ∈ done ++ [x] ↔ q ∈ done ∨ q = x).
    { intros q. by rewrite elem_of_app, list_elem_of_singleton. }
    change (cell_at s x.1 x.2) with (cell s x). rewrite Hmine.
    destruct (is_mine (cell b x)) eqn:Ex.
    + split; [by apply wf_update_cell|].
      intros q Hq. rewrite (cell_update n) by done.
      destruct (decide (x = q)) as [->|Hne].
      * rewrite (decide_True (P := q ∈ done ++ [q])) by (apply Hin; by right).
        rewrite Ex, Hs by done. rewrite Ex. by case_decide.
      * rewrite Hs by done.
        destruct (decide (q ∈ done)) as [Hd|Hd].
        -- rewrite decide_True; [done|]. apply Hin. by left.
        -- rewrite decide_False; [done|]. intros [?|?]%Hin; congruence.
    + split; [done|]. intros q Hq. rewrite Hs by done.
      destruct (decide (q ∈ done)) as [Hd|Hd].
      * rewrite decide_True; [done|]. apply Hin. by left.
      * destruct (decide (q ∈ done ++ [x])) as [Hq'|_]; [|done].
        apply Hin in Hq' as [?|Hq']; [done|]. subst q. by rewrite Ex.
Qed.

(** ** The click handlers, case by case *)

(** The grid position that the subscription [board[row][col]] denotes. *)
Lemma locate_cell n b row col i j :
  wf_board n b → locate b row col = Some (i, j) →
  in_grid n (Z.of_nat i, Z.of_nat j) ∧
  cell_at b row col = cell b (Z.of_nat i, Z.of_nat j) ∧
  ∀ f, update_cell f b row col = update_cell f b (Z.of_nat i) (Z.of_nat j).
Proof.
  intros Hwf H. destruct (locate_grid_pos n b row col i j Hwf H) as [Hg E].
  split; [done|]. split.
  - apply cell_at_same_place. simpl. congruence.
  - intros f. apply update_cell_same_place. congruence.
Qed.

Lemma flood_fill_returns n b row col :
  0 <= n → wf_board n b → is_Some (_flood_fill n b row col).
Proof.
  intros Hn Hwf. unfold _flood_fill.
  destruct (flood_loop_terminates n (S (Z.to_nat (n * n))) [(row, col)] b Hwf)
    as [[b' popped] ->]; [|by eexists].
  pose proof (hidden_count_bound n b Hn). simpl. lia.
Qed.

Lemma left_click_safe_cell g row col i j :
  0 <= N g → wf_board (N g) (board g) → game_over g = false →
  locate (board g) row col = Some (i, j) →
  let p := (Z.of_nat i, Z.of_nat j) in
  is_flagged (cell (board g) p) = false →
  is_revealed (cell (board g) p) = false →
  is_mine (cell (board g) p) = false →
  ∃ b2,
    left_click g row col
    = Return (if _check_win (N g) b2
              then finish "Congratulations, you won!" (with_board b2 g)
              else with_board b2 g) ∧
    wf_board (N g) b2 ∧
    ∀ q, in_grid (N g) q →
      (opened_by_click g row col p q →
         cell b2 q = set_is_revealed true (cell (board g) q)) ∧
      (cell b2 q = cell (board g) q ∨
       (opened_by_click g row col p q ∧
        cell b2 q = set_is_revealed true (cell (board g) q))).
Proof.
  intros Hn Hwf Hgo Hloc p Hf Hr Hm.
  destruct (locate_cell _ _ _ _ _ _ Hwf Hloc) as (Hp & Ecell & Eupd).
  fold p in Hp, Ecell.
  unfold opened_by_click, left_click. rewrite Hgo, Hloc, Ecell, Hf, Hr, Hm. simpl.
  set (b1 := update_cell (set_is_revealed true) (board g) row col).
  assert (Hwf1 : wf_board (N g) b1) by by apply wf_update_cell.
  assert (Hb1 : ∀ q, in_grid (N g) q →
            cell b1 q = if decide (p = q) then set_is_revealed true (cell (board g) p)
                        else cell (board g) q).
  { intros q Hq. unfold b1. rewrite Eupd. by apply (cell_update (N g) _ _ p q). }
  destruct (Z.eqb_spec (adjacent_mines (cell (board g) p)) 0) as [Hz|Hz].
  - destruct (flood_fill_returns (N g) b1 row col Hn Hwf1) as [b2 Eff].
    rewrite Eff. exists b2. split; [by destruct (_check_win _ _)|].
    unfold _flood_fill in Eff.
    destruct (flood_loop _ _ _ _) as [[b2' popped]|] eqn:El; [|done].
    simpl in Eff. simplify_eq.
    destruct (flood_loop_region (N g) b1 (row, col) _ _ _ Hwf1 El) as [Hwf2 Hcells].
    split; [done|]. intros q Hq. destruct (Hcells q Hq) as [Hyes Hno].
    assert (Hb1p : cell b1 p = set_is_revealed true (cell (board g) p)).
    { rewrite Hb1 by done. by rewrite decide_True. }
    assert (Hnop : ¬ flood_target (N g) b1 (row, col) p).
    { intros [Ho _]. apply openable_fields in Ho as (Ho & _).
      by rewrite Hb1p in Ho. }
    assert (Hb2p : cell b2 p = set_is_revealed true (cell (board g) p)).
    { destruct (Hcells p Hp) as [_ [->|[? _]]]; done. }
    destruct (decide (q = p)) as [->|Hne].
    { split; [done|]. right. split; [by left|done]. }
    rewrite Hb1, decide_False in Hyes, Hno by done.
    split.
    + intros [->|[_ Ht]]; [done|]. by apply Hyes.
    + destruct Hno as [?|[Ht ?]]; [by left|]. right. split; [|done]. by right.
  - exists b1. split; [by destruct (_check_win _ _)|]. split; [done|].
    intros q Hq. rewrite Hb1 by done.
    destruct (decide (p = q)) as [<-|Hne].
    + split; [done|]. right. split; [by left|done].
    + split; [|by left]. intros [->|[? _]]; done.
Qed.

Lemma left_click_mine_cell g row col i j :
  wf_board (N g) (board g) → game_over g = false →
  locate (board g) row col = Some (i, j) →
  let p := (Z.of_nat i, Z.of_nat j) in
  is_flagged (cell (board g) p) = false →
  is_revealed (cell (board g) p) = false →
  is_mine (cell (board g) p) = true →
  ∃ b2,
    left_click g row col
    = Return (finish "You hit a mine! Game Over!" (with_board b2 g)) ∧
    wf_board (N g) b2 ∧
    ∀ q, in_grid (N g) q →
      cell b2 q = if is_mine (cell (board g) q)
                  then set_is_revealed true (cell (board g) q)
                  else cell (board g) q.
Proof.
  intros Hwf Hgo Hloc p Hf Hr Hm.
  destruct (locate_cell _ _ _ _ _ _ Hwf Hloc) as (Hp & Ecell & Eupd).
  fold p in Hp, Ecell.
  unfold left_click. rewrite Hgo, Hloc, Ecell, Hf, Hr, Hm. simpl.
  set (b1 := update_cell (set_is_revealed true) (board g) row col).
  assert (Hwf1 : wf_board (N g) b1) by by apply wf_update_cell.
  destruct (show_all_mines_spec (N g) b1 Hwf1) as [Hwf2 Hcells].
  eexists. split; [done|]. split; [done|].
  intros q Hq. rewrite Hcells by done. unfold b1. rewrite Eupd.
  rewrite (cell_update (N g) _ _ p q) by done.
  destruct (decide (p = q)) as [<-|Hne]; [|done].
  simpl. by rewrite Hm.
Qed.

Lemma right_click_hidden_cell g row col i j :
  wf_board (N g) (board g) → game_over g = false →
  locate (board g) row col = Some (i, j) →
  let p := (Z.of_nat i, Z.of_nat j) in
  is_revealed (cell (board g) p) = false →
  ∃ b2,
    right_click g row col = Return (with_board b2 g) ∧
    wf_board (N g) b2 ∧
    ∀ q, in_grid (N g) q →
      cell b2 q = if decide (p = q)
                  then set_is_flagged (negb (is_flagged (cell (board g) p)))
                         (cell (board g) p)
                  else cell (board g) q.
Proof.
  intros Hwf Hgo Hloc p Hr.
  destruct (locate_cell _ _ _ _ _ _ Hwf Hloc) as (Hp & Ecell & Eupd).
  fold p in Hp, Ecell.
  unfold right_click. rewrite Hgo, Hloc, Ecell, Hr.
  eexists. split; [done|]. split; [by apply wf_update_cell|].
  intros q Hq. rewrite Eupd. by apply (cell_update (N g) _ _ p q).
Qed.

(** ** The steps of a game *)

Lemma perform_step g a :
  0 <= N g → wf_board (N g) (board g) → click_step g a (perform g a).
Proof.
  intros Hn Hwf.
  destruct (game_over g) eqn:Hgo.
  { destruct a; simpl; unfold left_click, right_click; rewrite Hgo;
      by apply step_game_over. }
  destruct a as [row col|row col]; simpl.
  - destruct (locate (board g) row col) as [[i j]|] eqn:Hloc.
    2:{ unfold left_click. rewrite Hgo, Hloc. by apply step_left_raises. }
    destruct (locate_cell _ _ _ _ _ _ Hwf Hloc) as (Hp & Ecell & _).
    destruct (is_flagged (cell (board g) (Z.of_nat i, Z.of_nat j))) eqn:Hf.
    { unfold left_click. rewrite Hgo, Hloc, Ecell, Hf. simpl.
      eapply step_left_ignored; eauto. }
    destruct (is_revealed (cell (board g) (Z.of_nat i, Z.of_nat j))) eqn:Hr.
    { unfold left_click. rewrite Hgo, Hloc, Ecell, Hf, Hr. simpl.
      eapply step_left_ignored; eauto. }
    destruct (is_mine (cell (board g) (Z.of_nat i, Z.of_nat j))) eqn:Hm.
    + destruct (left_click_mine_cell g row col i j Hwf Hgo Hloc Hf Hr Hm)
        as (b2 & -> & Hwf2 & Hcells).
      eapply step_left_mine; eauto.
    + destruct (left_click_safe_cell g row col i j Hn Hwf Hgo Hloc Hf Hr Hm)
        as (b2 & -> & Hwf2 & Hcells).
      eapply step_left_safe; eauto.
  - destruct (locate (board g) row col) as [[i j]|] eqn:Hloc.
    2:{ unfold right_click. rewrite Hgo, Hloc. by apply step_right_raises. }
    destruct (locate_cell _ _ _ _ _ _ Hwf Hloc) as (Hp & Ecell & _).
    destruct (is_revealed (cell (board g) (Z.of_nat i, Z.of_nat j))) eqn:Hr.
    { unfold right_click. rewrite Hgo, Hloc, Ecell, Hr.
      eapply step_right_ignored; eauto. }
    destruct (right_click_hidden_cell g row col i j Hwf Hgo Hloc Hr)
      as (b2 & -> & Hwf2 & Hcells).
    eapply step_right_toggles; eauto.
Qed.

Lemma set_is_revealed_id x : is_revealed x = true → set_is_revealed true x = x.
Proof. destruct x; simpl; by intros ->. Qed.

(** A cell the flood fill opens was hidden, unflagged and no mine. *)
Lemma opened_by_click_openable g row col i j q :
  wf_board (N g) (board g) → locate (board g) row col = Some (i, j) →
  in_grid (N g) q →
  opened_by_click g row col (Z.of_nat i, Z.of_nat j) q →
  q = (Z.of_nat i, Z.of_nat j) ∨ openable (board g) q.
Proof.
  intros Hwf Hloc Hq [->|[_ [Ho _]]]; [by left|].
  destruct (locate_cell _ _ _ _ _ _ Hwf Hloc) as (Hp & _ & Eupd).
  destruct (decide (q = (Z.of_nat i, Z.of_nat j))) as [->|Hne]; [by left|].
  right. unfold openable in *. rewrite Eupd in Ho.
  by rewrite (cell_update_ne (N g) _ _ (Z.of_nat i, Z.of_nat j) q) in Ho.
Qed.

(** What a call that returns leaves unchanged, cell by cell. *)
Lemma click_step_cells g a g' :
  wf_board (N g) (board g) → click_step g a (Return g') →
  N g' = N g ∧ M g' = M g ∧ wf_board (N g) (board g') ∧
  ∀ q, in_grid (N g) q →
    is_mine (cell (board g') q) = is_mine (cell (board g) q) ∧
    adjacent_mines (cell (board g') q) = adjacent_mines (cell (board g) q) ∧
    (is_revealed (cell (board g) q) = true → cell (board g') q = cell (board g) q) ∧
    (is_revealed (cell (board g) q) = false →
     is_revealed (cell (board g') q) = true →
     is_flagged (cell (board g') q) = is_flagged (cell (board g) q) ∧
     (is_flagged (cell (board g) q) = true →
      is_mine (cell (board g) q) = true ∧ game_over g' = true
      ∧ info_label g' = lost_text)).
Proof.
  intros Hwf Hstep. inversion Hstep as
    [ a' Hgo | | | row col i j p Hgo Hloc Hp Hblock
    | row col i j b2 p Hgo Hloc Hp Hf Hr Hm Hwf2 Hcells
    | row col i j b2 p Hgo Hloc Hp Hf Hr Hm Hwf2 Hcells
    | row col i j p Hgo Hloc Hp Hr
    | row col i j b2 p Hgo Hloc Hp Hr Hwf2 Hcells ]; subst.
  - split_and!; try done. intros q Hq. split_and!; try done. congruence.
  - split_and!; try done. intros q Hq. split_and!; try done. congruence.
  - split_and!; try done. intros q Hq. simpl. rewrite Hcells by done.
    destruct (is_mine (cell (board g) q)) eqn:Emq; simpl.
    + rewrite Emq. split_and!; try done.
      * intros Hrq. by apply set_is_revealed_id.
    + split_and!; try done. congruence.
  - assert (Hq : ∀ q, in_grid (N g) q →
        is_mine (cell b2 q) = is_mine (cell (board g) q) ∧
        adjacent_mines (cell b2 q) = adjacent_mines (cell (board g) q) ∧
        (is_revealed (cell (board g) q) = true → cell b2 q = cell (board g) q) ∧
        (is_revealed (cell (board g) q) = false →
         is_revealed (cell b2 q) = true →
         is_flagged (cell b2 q) = is_flagged (cell (board g) q) ∧
         is_flagged (cell (board g) q) = false)).
    { intros q Hq.
      destruct (Hcells q Hq) as [_ [Hc|[Hop Hc]]]; rewrite Hc.
      + split_and!; try done; congruence.
      + apply (opened_by_click_openable g row col i j q Hwf Hloc Hq) in Hop.
        assert (is_revealed (cell (board g) q) = false
                ∧ is_flagged (cell (board g) q) = false) as [Hrq Hfq].
        { destruct Hop as [->|Hop]; [done|].
          by apply openable_fields in Hop as (? & ? & _). }
        simpl. split_and!; try done; congruence. }
    destruct (_check_win (N g) b2); simpl; (split_and!; try done);
      intros q Hqg; destruct (Hq q Hqg) as (? & ? & ? & Hnew);
      (split_and!; try done); intros Hh Hr'; destruct (Hnew Hh Hr');
      (split; [done|congruence]).
  - split_and!; try done. intros q Hq. split_and!; try done. congruence.
  - split_and!; try done. intros q Hq. simpl. rewrite Hcells by done.
    destruct (decide (p = q)) as [<-|Hne].
    + simpl. rewrite Hr. split_and!; try done.
    + split_and!; try done. congruence.
Qed.

(** * Invariants of the games that exist at run time *)

Lemma length_filter_all {A} (P : A → Prop) `{!∀ x, Decision (P x)} (l : list A) :
  (∀ x, x ∈ l → P x) → length (filter P l) = length l.
Proof.
  induction l as [|x l IH]; intros Hall; [reflexivity|].
  rewrite filter_cons, decide_True by (apply Hall, list_elem_of_here).
  simpl. f_equal. apply IH. intros y Hy. by apply Hall, list_elem_of_further.
Qed.

Lemma adjacency_value_ext n b b' p :
  (∀ q, in_grid n q → is_mine (cell b' q) = is_mine (cell b q)) →
  in_grid n p →
  adjacency_value n b' p = adjacency_value n b p.
Proof.
  intros H Hp. unfold adjacency_value.
  by rewrite (H p Hp), (count_window_mines_ext n b b').
Qed.

(** The cells of a freshly built board. *)
Lemma new_board_cell n mines q :
  mines ⊆ all_positions n → in_grid n q →
  let b0 := _place_mines mines (empty_board n) in
  cell b0 q = mkCell (bool_decide (q ∈ mines)) 0 false false ∧
  cell (_calculate_adjacency n b0) q
  = mkCell (bool_decide (q ∈ mines)) (adjacency_value n b0 q) false false.
Proof.
  intros Hsub Hq b0.
  assert (Hwf0 : wf_board n b0) by apply wf_place_mines, wf_empty_board.
  assert (E0 : cell b0 q = mkCell (bool_decide (q ∈ mines)) 0 false false).
  { unfold b0. rewrite (cell_place_mines n) by auto using wf_empty_board.
    rewrite cell_empty_board. case_decide.
    - by rewrite bool_decide_eq_true_2.
    - by rewrite bool_decide_eq_false_2. }
  split; [done|].
  destruct (calculate_adjacency_spec n b0 Hwf0) as [_ ->]; [|done].
  by rewrite E0.
Qed.

Lemma new_game_inv n m mines :
  0 < n → 0 <= m < n * n → is_sample (all_positions n) m mines →
  game_inv (MinesweeperWindow n m mines).
Proof.
  intros Hn Hm Hs. pose proof Hs as (Hnd & Hsub & Hlen).
  set (b0 := _place_mines mines (empty_board n)).
  assert (Hwf0 : wf_board n b0) by apply wf_place_mines, wf_empty_board.
  destruct (calculate_adjacency_spec n b0 Hwf0) as [Hwf Hcells].
  assert (Hmine : ∀ q, in_grid n q →
    is_mine (cell (_calculate_adjacency n b0) q) = is_mine (cell b0 q)).
  { intros q Hq. by rewrite Hcells. }
  assert (Hcount : mine_count (_calculate_adjacency n b0) = m).
  { rewrite (mine_count_ext n b0) by done. by apply mine_count_place_mines. }
  split; simpl; fold b0; try done.
  - intros p Hp. rewrite (adjacency_value_ext n b0) by done. by rewrite Hcells.
  - intros p Hp. destruct (new_board_cell n mines p Hsub Hp) as [_ Hc].
    fold b0 in Hc. by rewrite Hc.
  - intros _. destruct (_check_win n _) eqn:Hw; [|done]. exfalso.
    rewrite check_win_spec in Hw.
    rewrite (mine_count_positions n) in Hcount by done.
    rewrite length_filter_all in Hcount.
    + rewrite length_all_positions in Hcount by lia. lia.
    + intros p Hp%elem_of_all_positions.
      destruct (is_mine (cell _ p)) eqn:E; [done|].
      apply Hw in E; [|done].
      destruct (new_board_cell n mines p Hsub Hp) as [_ Hc].
      fold b0 in Hc. by rewrite Hc in E.
Qed.

Lemma click_step_inv g a g' :
  game_inv g → click_step g a (Return g') → game_inv g'.
Proof.
  intros [Hn Hm Hwf Hcount Hadj Hflag Hprog] Hstep.
  destruct (click_step_cells g a g' Hwf Hstep) as (EN & EM & Hwf' & Hcells).
  assert (Hmine : ∀ q, in_grid (N g) q →
            is_mine (cell (board g') q) = is_mine (cell (board g) q)).
  { intros q Hq. by destruct (Hcells q Hq) as (? & _). }
  split; rewrite ?EN, ?EM; try done.
  - by rewrite (mine_count_ext (N g) (board g)).
  - intros p Hp. rewrite (adjacency_value_ext (N g) (board g)) by done.
    destruct (Hcells p Hp) as (_ & -> & _). by apply Hadj.
  - intros p Hp Hf Hr. destruct (Hcells p Hp) as (Em & _ & Hold & Hnew).
    rewrite Em. destruct (is_revealed (cell (board g) p)) eqn:Hrp.
    + rewrite Hold in Hf by done.
      destruct (Hflag p Hp Hf Hrp) as [Hmp Hgo]. split; [done|].
      inversion Hstep; subst; try done; congruence.
    + destruct (Hnew eq_refl Hr) as [Ef Hlost]. rewrite Ef in Hf.
      by destruct (Hlost Hf) as (? & ? & _).
  - inversion Hstep as
      [ a' Hgo | | | row col i j p Hgo Hloc Hp Hblock
      | row col i j b2 p Hgo Hloc Hp Hf Hr Hm' Hwf2 Hc2
      | row col i j b2 p Hgo Hloc Hp Hf Hr Hm' Hwf2 Hc2
      | row col i j p Hgo Hloc Hp Hr
      | row col i j b2 p Hgo Hloc Hp Hr Hwf2 Hc2 ]; subst; try done.
    + destruct (_check_win (N g) b2) eqn:Hw; simpl; [done|]. by rewrite Hw.
    + simpl. intros _. rewrite <- (Hprog Hgo). apply check_win_ext.
      intros q Hq. rewrite Hc2 by done. by case_decide; subst.
Qed.

Lemma reachable_inv g : reachable g → game_inv g.
Proof.
  induction 1 as [n m mines Hn Hm Hs|g a g' Hreach IH Hperf].
  - by apply new_game_inv.
  - apply (click_step_inv g a g' IH). rewrite <- Hperf.
    apply perform_step; [|apply IH]. pose proof (inv_size g IH). lia.
Qed.

(** A call never runs out of fuel on a board built by the constructor. *)
Lemma perform_returns_or_raises g a :
  reachable g → perform g a ≠ OutOfFuel.
Proof.
  intros Hg%reachable_inv Hperf.
  assert (Hstep : click_step g a (perform g a)).
  { apply perform_step; [|apply Hg]. pose proof (inv_size g Hg). lia. }
  rewrite Hperf in Hstep. inversion Hstep.
Qed.

(** ** Sequences of clicks *)

Lemma click_step_raises g a g' : click_step g a (IndexError g') → g' = g.
Proof. by inversion 1. Qed.

Lemma reachable_state_after g a : reachable g → reachable (state_after g (perform g a)).
Proof.
  intros Hg. pose proof (reachable_inv g Hg) as Hinv.
  assert (Hstep : click_step g a (perform g a)).
  { apply perform_step; [|apply Hinv]. pose proof (inv_size g Hinv). lia. }
  destruct (perform g a) as [g'|g'|] eqn:E; simpl.
  - by apply (reachable_step g a).
  - by apply click_step_raises in Hstep as ->.
  - done.
Qed.

Lemma reachable_play g acts : reachable g → reachable (play g acts).
Proof.
  revert g. induction acts as [|a acts IH]; intros g Hg; [done|].
  simpl. by apply IH, reachable_state_after.
Qed.

(** * The neighbours of a cell *)

Lemma elem_of_grid_neighbors n p q :
  q ∈ grid_neighbors n p ↔ in_grid n q ∧ adjacent p q ∧ q ≠ p.
Proof.
  unfold grid_neighbors. rewrite list_elem_of_filter.
  destruct p as [pr pc], q as [qr qc]. unfold adjacent, moore_offsets. simpl.
  rewrite !elem_of_cons, elem_of_nil. split.
  - intros [Hg Hq]. split; [done|].
    repeat (destruct Hq as [Hq|Hq]; [simplify_eq; split; [lia|intros ?; simplify_eq; lia]|]).
    done.
  - intros (Hg & [Hr Hc] & Hne). split; [done|].
    assert (qr = pr + -1 ∨ qr = pr + 0 ∨ qr = pr + 1) as Hr' by lia.
    assert (qc = pc + -1 ∨ qc = pc + 0 ∨ qc = pc + 1) as Hc' by lia.
    destruct Hr' as [-> | [-> | ->]], Hc' as [-> | [-> | ->]];
      try (exfalso; apply Hne; f_equal; lia);
      repeat (first [left; reflexivity | right]).
Qed.

Lemma NoDup_grid_neighbors n p : NoDup (grid_neighbors n p).
Proof.
  unfold grid_neighbors. apply NoDup_filter, NoDup_fmap_2.
  - intros [a b] [c d] E. simpl in E. injection E as E1 E2. f_equal; lia.
  - apply (bool_decide_unpack _). by vm_compute.
Qed.

(** The window loops run through the cell and its neighbours. *)
Lemma neighborhood_neighbors n p :
  in_grid n p → neighborhood n p.1 p.2 ≡ₚ p :: grid_neighbors n p.
Proof.
  intros Hp. apply NoDup_Permutation.
  - apply NoDup_neighborhood.
  - apply NoDup_cons. split; [|apply NoDup_grid_neighbors].
    rewrite elem_of_grid_neighbors. tauto.
  - intros q. rewrite elem_of_neighborhood, elem_of_cons, elem_of_grid_neighbors.
    destruct p as [pr pc]. simpl. split.
    + intros [Hg Hadj]. destruct (decide (q = (pr, pc))); [by left|by right].
    + intros [->|(? & ? & _)]; [|done]. split; [done|]. unfold adjacent. simpl. lia.
Qed.

Lemma count_window_mines_neighbors n b p :
  in_grid n p → is_mine (cell b p) = false →
  count_window_mines n b p.1 p.2 = mine_neighbors n b p.
Proof.
  intros Hp Hm. rewrite count_window_mines_filter. unfold mine_neighbors.
  rewrite (neighborhood_neighbors n p Hp), filter_cons, decide_False; [done|].
  congruence.
Qed.

(** * The properties of the specification *)

Lemma corner_sample : is_sample (all_positions 3) 1 [(2, 2)].
Proof.
  split_and!; [apply NoDup_singleton| |reflexivity].
  intros p ->%list_elem_of_singleton. apply elem_of_all_positions.
  unfold in_grid. simpl. lia.
Qed.

Lemma corner_game_reachable : reachable corner_game.
Proof. apply reachable_new; [lia|lia|apply corner_sample]. Qed.

Lemma diagonal_sample : is_sample (all_positions 2) 2 [(0, 0); (1, 1)].
Proof.
  split_and!; [|  |reflexivity].
  - apply (bool_decide_unpack _). by vm_compute.
  - intros p [->|[->|[]%elem_of_nil]%elem_of_cons]%elem_of_cons;
      apply elem_of_all_positions; unfold in_grid; simpl; lia.
Qed.

Lemma diagonal_game_reachable : reachable diagonal_game.
Proof. apply reachable_new; [lia|lia|apply diagonal_sample]. Qed.

Lemma play_params g acts :
  reachable g → N (play g acts) = N g ∧ M (play g acts) = M g.
Proof.
  revert g. induction acts as [|a acts IH]; intros g Hg; [done|].
  simpl. destruct (IH _ (reachable_state_after g a Hg)) as [-> ->].
  pose proof (reachable_inv g Hg) as Hinv.
  assert (Hstep : click_step g a (perform g a)).
  { apply perform_step; [|apply Hinv]. pose proof (inv_size g Hinv). lia. }
  destruct (perform g a) as [g'|g'|] eqn:E; simpl; [| |done].
  - by destruct (click_step_cells g a g' (inv_wf g Hinv) Hstep) as (? & ? & _).
  - by apply click_step_raises in Hstep as ->.
Qed.

(** In grid coordinates the subscription denotes the position itself. *)
Lemma locate_in_grid_pos n b row col i j :
  wf_board n b → in_grid n (row, col) → locate b row col = Some (i, j) →
  (Z.of_nat i, Z.of_nat j) = (row, col).
Proof.
  intros Hwf Hg Hloc. rewrite (locate_in_grid n) in Hloc by done.
  destruct Hg as [Hr Hc]. simpl in *. simplify_eq. f_equal; lia.
Qed.

(** C5. On every board built by the generator (and in every later state of
    the game) a mine carries the sentinel -1 in [adjacent_mines], and every
    other cell carries the number of mines among its up-to-8 neighbours
    that lie in the grid; positions outside the grid are not counted. *)
Theorem adjacency_correct g p :
  reachable g → in_grid (N g) p →
  (is_mine (cell (board g) p) = true → adjacent_mines (cell (board g) p) = -1) ∧
  (is_mine (cell (board g) p) = false →
   adjacent_mines (cell (board g) p) = mine_neighbors (N g) (board g) p).
Proof.
  intros Hg%reachable_inv Hp. rewrite (inv_adjacency g Hg p Hp).
  unfold adjacency_value. split; intros Hm; rewrite Hm; [done|].
  by apply count_window_mines_neighbors.
Qed.

Lemma adjacency_correct_witness :
  reachable corner_game ∧ in_grid (N corner_game) (1, 1) ∧
  adjacent_mines (cell (board corner_game) (1, 1)) = 1.
Proof.
  split; [apply corner_game_reachable|]. split; [unfold in_grid; simpl; lia|].
  apply (adjacency_correct corner_game (1, 1)).
  - apply corner_game_reachable.
  - unfold in_grid. simpl. lia.
  - reflexivity.
Defined.

(** C6. A board generated for N > 0 and 0 <= M < N * N has exactly M cells
    with [is_mine] set, and so has the board after any sequence of reveal
    and toggle-flag calls. *)
Theorem mine_count_invariant n m mine_positions acts :
  0 < n → 0 <= m < n * n →
  is_sample (all_positions n) m mine_positions →
  mine_count (board (play (MinesweeperWindow n m mine_positions) acts)) = m.
Proof.
  intros Hn Hm Hs.
  assert (Hg : reachable (MinesweeperWindow n m mine_positions))
    by by apply reachable_new.
  rewrite (inv_mine_count _ (reachable_inv _ (reachable_play _ acts Hg))).
  by destruct (play_params _ acts Hg) as [_ ->].
Qed.

Lemma mine_count_invariant_witness :
  mine_count (board (play (MinesweeperWindow 3 1 [(2, 2)])
                       [RightClick 0 1; LeftClick 0 0; LeftClick 2 2])) = 1.
Proof.
  apply (mine_count_invariant 3 1 [(2, 2)]); [lia|lia|apply corner_sample].
Defined.

(** C7. Once [game_over] is set, every reveal and every toggle-flag call,
    at any coordinates, returns the game unchanged: no field of any cell
    changes and [game_over] stays set, whatever sequence of calls follows. *)
Theorem game_over_is_final g acts :
  game_over g = true →
  play g acts = g ∧
  ∀ row col, left_click g row col = Return g ∧ right_click g row col = Return g.
Proof.
  intros Hgo.
  assert (Hcall : ∀ row col,
    left_click g row col = Return g ∧ right_click g row col = Return g).
  { intros row col. unfold left_click, right_click. by rewrite Hgo. }
  split; [|done].
  induction acts as [|a acts IH]; [done|].
  simpl. destruct a as [row col|row col]; simpl.
  - by rewrite (proj1 (Hcall row col)).
  - by rewrite (proj2 (Hcall row col)).
Qed.

Lemma game_over_is_final_witness :
  let g := play corner_game [LeftClick 0 0] in
  game_over g = true ∧
  play g [RightClick 2 2; LeftClick 2 2; LeftClick 7 7] = g.
Proof.
  split; [reflexivity|].
  apply (game_over_is_final (play corner_game [LeftClick 0 0])). reflexivity.
Defined.

(** C3. In a game in progress, a reveal of a hidden, unflagged mine ends
    the game as lost and marks every mine revealed, flagged or not; no
    cell that is not a mine changes (so no flagged safe cell is revealed),
    and no flag changes. *)
Theorem reveal_mine_loses g row col :
  wf_board (N g) (board g) → game_over g = false →
  in_grid (N g) (row, col) →
  is_flagged (cell_at (board g) row col) = false →
  is_revealed (cell_at (board g) row col) = false →
  is_mine (cell_at (board g) row col) = true →
  ∃ g', left_click g row col = Return g' ∧
    game_over g' = true ∧ info_label g' = lost_text ∧
    ∀ q, in_grid (N g) q →
      (is_mine (cell (board g) q) = true →
         is_revealed (cell (board g') q) = true ∧
         is_mine (cell (board g') q) = true ∧
         is_flagged (cell (board g') q) = is_flagged (cell (board g) q)) ∧
      (is_mine (cell (board g) q) = false →
         cell (board g') q = cell (board g) q).
Proof.
  intros Hwf Hgo Hg Hf Hr Hm.
  pose proof (locate_in_grid _ _ _ _ Hwf Hg) as Hloc.
  pose proof (locate_in_grid_pos _ _ _ _ _ _ Hwf Hg Hloc) as Ep.
  destruct (left_click_mine_cell g row col _ _ Hwf Hgo Hloc)
    as (b2 & -> & Hwf2 & Hcells); try (rewrite Ep; done).
  eexists. split; [done|]. split; [done|]. split; [done|].
  intros q Hq. simpl. rewrite Hcells by done.
  split; intros Hmq; rewrite Hmq; [|done]. by simpl.
Qed.

Lemma reveal_mine_loses_witness :
  ∃ g', left_click diagonal_game 1 1 = Return g' ∧
    game_over g' = true ∧ info_label g' = lost_text ∧
    ∀ q, in_grid (N diagonal_game) q →
      (is_mine (cell (board diagonal_game) q) = true →
         is_revealed (cell (board g') q) = true ∧
         is_mine (cell (board g') q) = true ∧
         is_flagged (cell (board g') q) = is_flagged (cell (board diagonal_game) q)) ∧
      (is_mine (cell (board diagonal_game) q) = false →
         cell (board g') q = cell (board diagonal_game) q).
Proof.
  apply (reveal_mine_loses diagonal_game 1 1).
  - apply (inv_wf _ (reachable_inv _ diagonal_game_reachable)).
  - reflexivity.
  - unfold in_grid. simpl. lia.
  - by vm_compute.
  - by vm_compute.
  - by vm_compute.
Defined.

(** C4. In a game in progress, after a reveal of a cell that is no mine
    (flood fill included) [game_over] is set exactly when every cell that
    is no mine is revealed, and then the game is won; the mines need not
    be revealed or flagged. On the 3 x 3 board whose only mine is at
    (2, 2), the reveal of (0, 0) reveals the 8 other cells and wins. *)
Theorem reveal_safe_wins_iff :
  (∀ g row col,
     reachable g → game_over g = false →
     in_grid (N g) (row, col) →
     is_mine (cell_at (board g) row col) = false →
     ∃ g', left_click g row col = Return g' ∧
       (game_over g' = true ↔
        ∀ q, in_grid (N g) q → is_mine (cell (board g') q) = false →
             is_revealed (cell (board g') q) = true) ∧
       (game_over g' = true → info_label g' = won_text)) ∧
  (∃ g', left_click corner_game 0 0 = Return g' ∧
     game_over g' = true ∧ info_label g' = won_text ∧
     (∀ q, in_grid 3 q → q ≠ (2, 2) → is_revealed (cell (board g') q) = true) ∧
     is_revealed (cell (board g') (2, 2)) = false ∧
     is_flagged (cell (board g') (2, 2)) = false).
Proof.
  split.
  - intros g row col Hreach Hgo Hg Hm.
    pose proof (reachable_inv g Hreach) as Hinv.
    pose proof (inv_wf g Hinv) as Hwf.
    assert (Hn : 0 <= N g) by (pose proof (inv_size g Hinv); lia).
    pose proof (perform_step g (LeftClick row col) Hn Hwf) as Hstep.
    simpl in Hstep.
    assert (Hnot : ¬ ∀ q, in_grid (N g) q → is_mine (cell (board g) q) = false →
                          is_revealed (cell (board g) q) = true).
    { intros Hall%check_win_spec. by rewrite (inv_progress g Hinv Hgo) in Hall. }
    inversion Hstep as
      [ a' Hgo' | row' col' Hgo' Hloc | | row' col' i j p Hgo' Hloc Hp Hblock
      | row' col' i j b2 p Hgo' Hloc Hp Hf Hr Hm' Hwf2 Hc2
      | row' col' i j b2 p Hgo' Hloc Hp Hf Hr Hm' Hwf2 Hc2 | | ]; subst.
    + congruence.
    + by rewrite (locate_in_grid (N g)) in Hloc.
    + exists g. split; [done|]. rewrite Hgo. split; [|done].
      split; [done|]. intros Hall. by destruct Hnot.
    + pose proof (locate_in_grid_pos _ _ _ _ _ _ Hwf Hg Hloc) as Ep.
      unfold p in Hm'. rewrite Ep in Hm'. unfold cell in Hm'. simpl in Hm'.
      congruence.
    + eexists. split; [done|].
      destruct (_check_win (N g) b2) eqn:Hw; simpl.
      * split; [|done]. split; [|done]. intros _. by apply check_win_spec.
      * rewrite Hgo. split; [|done]. split; [done|].
        intros Hall%check_win_spec. congruence.
  - exists (play corner_game [LeftClick 0 0]).
    split; [by vm_compute|]. split; [by vm_compute|]. split; [by vm_compute|].
    split; [|split; by vm_compute].
    intros [r c] [Hr Hc] Hne. cbn [fst snd] in Hr, Hc.
    assert (r = 0 ∨ r = 1 ∨ r = 2) as Hr' by lia.
    assert (c = 0 ∨ c = 1 ∨ c = 2) as Hc' by lia.
    destruct Hr' as [-> | [-> | ->]], Hc' as [-> | [-> | ->]];
      try (by vm_compute).
Qed.

Lemma reveal_safe_wins_iff_witness :
  ∃ g', left_click corner_game 1 1 = Return g' ∧
    (game_over g' = true ↔
     ∀ q, in_grid (N corner_game) q → is_mine (cell (board g') q) = false →
          is_revealed (cell (board g') q) = true) ∧
    (game_over g' = true → info_label g' = won_text).
Proof.
  apply (proj1 reveal_safe_wins_iff corner_game 1 1).
  - apply corner_game_reachable.
  - reflexivity.
  - unfold in_grid. simpl. lia.
  - by vm_compute.
Defined.

(** ** Flag and reveal *)

(** C1, as stated, fails: on the 2 x 2 board with mines at (0, 0) and
    (1, 1), flag the mine at (0, 0) and reveal the mine at (1, 1); the loss
    reveals the flagged mine, which stays flagged. *)
Lemma flagged_mine_revealed_on_loss :
  let g := play diagonal_game [RightClick 0 0] in
  reachable g ∧
  is_flagged (cell (board g) (0, 0)) = true ∧
  is_revealed (cell (board g) (0, 0)) = false ∧
  ∃ g', left_click g 1 1 = Return g' ∧ reachable g' ∧
    is_flagged (cell (board g') (0, 0)) = true ∧
    is_revealed (cell (board g') (0, 0)) = true.
Proof.
  assert (Hg : reachable (play diagonal_game [RightClick 0 0]))
    by apply reachable_play, diagonal_game_reachable.
  split; [done|]. split; [by vm_compute|]. split; [by vm_compute|].
  exists (play diagonal_game [RightClick 0 0; LeftClick 1 1]).
  split; [by vm_compute|]. split; [|split; by vm_compute].
  apply reachable_play, diagonal_game_reachable.
Qed.

(** C1, amended. In every reachable game, a cell that is both flagged and
    revealed is a mine of a finished game; a call never changes the flag of
    a revealed cell; and a call reveals a flagged cell that stays flagged
    only if the cell is a mine and the call is the lost reveal that shows
    all mines. *)
Theorem flag_reveal_exclusion g q :
  reachable g → in_grid (N g) q →
  (is_flagged (cell (board g) q) = true → is_revealed (cell (board g) q) = true →
     is_mine (cell (board g) q) = true ∧ game_over g = true) ∧
  ∀ a g', perform g a = Return g' →
    (is_revealed (cell (board g) q) = true →
       is_flagged (cell (board g') q) = is_flagged (cell (board g) q)) ∧
    (is_flagged (cell (board g) q) = true →
     is_revealed (cell (board g) q) = false →
     is_flagged (cell (board g') q) = true →
     is_revealed (cell (board g') q) = true →
       is_mine (cell (board g) q) = true ∧ game_over g' = true
       ∧ info_label g' = lost_text).
Proof.
  intros Hreach Hq. pose proof (reachable_inv g Hreach) as Hinv.
  split; [by apply (inv_flag g Hinv)|].
  intros a g' Hperf.
  assert (Hstep : click_step g a (Return g')).
  { rewrite <- Hperf. apply perform_step; [|apply Hinv].
    pose proof (inv_size g Hinv). lia. }
  destruct (click_step_cells g a g' (inv_wf g Hinv) Hstep) as (_ & _ & _ & Hcells).
  destruct (Hcells q Hq) as (_ & _ & Hold & Hnew). split.
  - intros Hr. by rewrite Hold.
  - intros Hf Hr _ Hr'. destruct (Hnew Hr Hr') as [_ Hlost]. by apply Hlost.
Qed.

(** On the 2 x 2 board with mines at (0, 0) and (1, 1): the mine (0, 0) is
    flagged and hidden in [g], and the lost reveal of (1, 1) shows it with
    its flag; in the lost game [g'] it is flagged and revealed; in [h] the
    cell (0, 1) is revealed, the game goes on, and a right click on it
    leaves it without flag. *)
Lemma flag_reveal_exclusion_witness :
  let g := play diagonal_game [RightClick 0 0] in
  let g' := play diagonal_game [RightClick 0 0; LeftClick 1 1] in
  let h := play diagonal_game [LeftClick 0 1] in
  let h' := play diagonal_game [LeftClick 0 1; RightClick 0 1] in
  (reachable g ∧ in_grid (N g) (0, 0) ∧
   perform g (LeftClick 1 1) = Return g' ∧
   is_flagged (cell (board g) (0, 0)) = true ∧
   is_revealed (cell (board g) (0, 0)) = false ∧
   is_flagged (cell (board g') (0, 0)) = true ∧
   is_revealed (cell (board g') (0, 0)) = true ∧
   is_mine (cell (board g) (0, 0)) = true ∧ game_over g' = true ∧
   info_label g' = lost_text) ∧
  (reachable g' ∧ in_grid (N g') (0, 0) ∧
   is_flagged (cell (board g') (0, 0)) = true ∧
   is_revealed (cell (board g') (0, 0)) = true ∧
   is_mine (cell (board g') (0, 0)) = true ∧ game_over g' = true) ∧
  (reachable h ∧ in_grid (N h) (0, 1) ∧ game_over h = false ∧
   perform h (RightClick 0 1) = Return h' ∧
   is_revealed (cell (board h) (0, 1)) = true ∧
   is_flagged (cell (board h') (0, 1)) = is_flagged (cell (board h) (0, 1))).
Proof.
  intros g g' h h'.
  assert (Hg : reachable g) by apply reachable_play, diagonal_game_reachable.
  assert (Hg' : reachable g') by apply reachable_play, diagonal_game_reachable.
  assert (Hh : reachable h) by apply reachable_play, diagonal_game_reachable.
  assert (Hq : in_grid 2 (0, 0)) by (unfold in_grid; simpl; lia).
  assert (Hq' : in_grid 2 (0, 1)) by (unfold in_grid; simpl; lia).
  assert (Hperf : perform g (LeftClick 1 1) = Return g') by by vm_compute.
  assert (Hf : is_flagged (cell (board g) (0, 0)) = true) by by vm_compute.
  assert (Hr : is_revealed (cell (board g) (0, 0)) = false) by by vm_compute.
  assert (Hf' : is_flagged (cell (board g') (0, 0)) = true) by by vm_compute.
  assert (Hr' : is_revealed (cell (board g') (0, 0)) = true) by by vm_compute.
  assert (Hperf' : perform h (RightClick 0 1) = Return h') by by vm_compute.
  assert (Hrh : is_revealed (cell (board h) (0, 1)) = true) by by vm_compute.
  assert (Hgh : game_over h = false) by by vm_compute.
  destruct (flag_reveal_exclusion g (0, 0) Hg Hq) as [_ Hcall].
  destruct (Hcall (LeftClick 1 1) g' Hperf) as [_ Hshown].
  destruct (Hshown Hf Hr Hf' Hr') as (Hmine & Hover & Htext).
  destruct (flag_reveal_exclusion g' (0, 0) Hg' Hq) as [Hboth _].
  destruct (Hboth Hf' Hr') as [Hmine' Hover'].
  destruct (flag_reveal_exclusion h (0, 1) Hh Hq') as [_ Hcall'].
  destruct (Hcall' (RightClick 0 1) h' Hperf') as [Hkeep _].
  split; [|split].
  - exact (conj Hg (conj Hq (conj Hperf (conj Hf (conj Hr (conj Hf' (conj Hr'
      (conj Hmine (conj Hover Htext))))))))).
  - exact (conj Hg' (conj Hq (conj Hf' (conj Hr' (conj Hmine' Hover'))))).
  - exact (conj Hh (conj Hq' (conj Hgh (conj Hperf' (conj Hrh (Hkeep Hrh)))))).
Defined.

(** ** Coordinates outside the grid *)

(** C8, as stated, fails: on the 3 x 3 board the toggle-flag call at
    (-1, 0) does not raise; Python reads the index -1 as the last row, and
    the cell (2, 0) gets a flag. *)
Lemma negative_index_wraps :
  ¬ in_grid (N corner_game) (-1, 0) ∧
  is_flagged (cell (board corner_game) (2, 0)) = false ∧
  ∃ g', right_click corner_game (-1) 0 = Return g' ∧
    is_flagged (cell (board g') (2, 0)) = true.
Proof.
  split; [unfold in_grid; simpl; lia|]. split; [by vm_compute|].
  exists (play corner_game [RightClick (-1) 0]). split; by vm_compute.
Qed.

(** C8, amended. In a game in progress, a reveal or toggle-flag call whose
    row or column lies outside -N <= i < N raises [IndexError] and leaves
    the game as it was. *)
Theorem out_of_range_raises g row col :
  wf_board (N g) (board g) → game_over g = false →
  ¬ (- N g <= row < N g ∧ - N g <= col < N g) →
  left_click g row col = IndexError g ∧ right_click g row col = IndexError g.
Proof.
  intros Hwf Hgo Hout.
  assert (Hloc : locate (board g) row col = None) by by apply (locate_None (N g)).
  unfold left_click, right_click. by rewrite Hgo, Hloc.
Qed.

Lemma out_of_range_raises_witness :
  left_click corner_game 3 0 = IndexError corner_game ∧
  right_click corner_game 3 0 = IndexError corner_game.
Proof.
  apply (out_of_range_raises corner_game 3 0).
  - apply (inv_wf _ (reachable_inv _ corner_game_reachable)).
  - reflexivity.
  - simpl. lia.
Defined.

(** ** Parameter validation *)

(** C9. [on_start_game] opens a game exactly when both texts are integers
    N and M with N > 0 and 0 <= M < N * N; in every other case it shows an
    error and builds no board. N = 5 with M = 25 is rejected. *)
Theorem start_game_validates (int : string → option Z)
    lineedit_n lineedit_m mine_positions :
  (∀ g, on_start_game int lineedit_n lineedit_m mine_positions = OpenGame g ↔
        ∃ n m, int lineedit_n = Some n ∧ int lineedit_m = Some m ∧
               0 < n ∧ 0 <= m < n * n ∧
               g = MinesweeperWindow n m mine_positions) ∧
  ((¬ ∃ n m, int lineedit_n = Some n ∧ int lineedit_m = Some m ∧
             0 < n ∧ 0 <= m < n * n) →
   ∃ msg, on_start_game int lineedit_n lineedit_m mine_positions = ShowError msg) ∧
  (int lineedit_n = Some 5 → int lineedit_m = Some 25 →
   on_start_game int lineedit_n lineedit_m mine_positions
   = ShowError "Invalid range for M! (0 <= M < N*N)").
Proof.
  unfold on_start_game. split_and!.
  - intros g. split.
    + destruct (int lineedit_n) as [n|]; [|done].
      destruct (int lineedit_m) as [m|]; [|done].
      destruct (Z.leb_spec n 0); [done|].
      destruct (Z.ltb_spec m 0); [done|].
      destruct (Z.geb_spec m (n * n)); [done|]. simpl.
      intros [= <-]. exists n, m. split_and!; try done; lia.
    + intros (n & m & -> & -> & Hn & Hm & ->).
      destruct (Z.leb_spec n 0); [lia|].
      destruct (Z.ltb_spec m 0); [lia|].
      destruct (Z.geb_spec m (n * n)); [lia|]. done.
  - intros Hno.
    destruct (int lineedit_n) as [n|]; [|by eexists].
    destruct (int lineedit_m) as [m|]; [|by eexists].
    destruct (Z.leb_spec n 0); [by eexists|].
    destruct (Z.ltb_spec m 0); [by eexists|].
    destruct (Z.geb_spec m (n * n)); [by eexists|].
    exfalso. apply Hno. exists n, m. split_and!; try done; lia.
  - by intros -> ->.
Qed.

(** What [int_decimal] makes of some texts: signs, white space and
    underscores are read as [int] reads them, and a text without digit is
    refused. *)
Lemma int_decimal_texts :
  int_decimal "25" = Some 25 ∧ int_decimal " 3 " = Some 3 ∧
  int_decimal "+3" = Some 3 ∧ int_decimal "-07" = Some (-7) ∧
  int_decimal "1_000" = Some 1000 ∧
  int_decimal "" = None ∧ int_decimal "-" = None ∧
  int_decimal "- 3" = None ∧ int_decimal "_1" = None ∧
  int_decimal "1__0" = None ∧ int_decimal "1_" = None ∧
  int_decimal "3 4" = None ∧ int_decimal "2.0" = None ∧
  int_decimal "ten" = None.
Proof. by vm_compute. Qed.

Lemma start_game_validates_witness :
  on_start_game int_decimal "5" "25" [] = ShowError "Invalid range for M! (0 <= M < N*N)".
Proof.
  apply (start_game_validates int_decimal "5" "25" []); reflexivity.
Defined.

(** ** Flood fill *)

(** C2, as stated, fails: on the 3 x 3 board with its mine at (2, 2), flag
    (0, 1) and reveal (0, 0). The cell (0, 1) has no adjacent mine and
    touches (0, 0), so it belongs to the region, but it is flagged and the
    flood fill leaves it hidden. *)
Lemma flagged_zero_cell_stays_hidden :
  let g := play corner_game [RightClick 0 1] in
  reachable g ∧ game_over g = false ∧
  openable (board g) (0, 0) ∧ adjacent_mines (cell (board g) (0, 0)) = 0 ∧
  zero_region 3 (board g) (0, 0) (0, 1) ∧
  ∃ g', left_click g 0 0 = Return g' ∧
    is_revealed (cell (board g') (0, 1)) = false.
Proof.
  split; [apply reachable_play, corner_game_reachable|].
  split; [by vm_compute|]. split; [by vm_compute|]. split; [by vm_compute|].
  split.
  - apply (zero_region_step _ _ _ (0, 0)); [constructor| | |by vm_compute].
    + unfold in_grid. simpl. lia.
    + unfold adjacent. simpl. lia.
  - exists (play corner_game [RightClick 0 1; LeftClick 0 0]).
    split; by vm_compute.
Qed.

(** The explored region, seen from the board before the click. *)
Lemma open_region_before_click n b row col p :
  wf_board n b → in_grid n (row, col) →
  open_region n (update_cell (set_is_revealed true) b row col) (row, col) p
  ↔ open_region n b (row, col) p.
Proof.
  intros Hwf Hs.
  set (b1 := update_cell (set_is_revealed true) b row col).
  assert (Hb1 : ∀ q, in_grid n q → q ≠ (row, col) → cell b1 q = cell b q).
  { intros q Hq Hne. by apply (cell_update_ne n _ _ (row, col) q). }
  assert (Hb1s : is_revealed (cell b1 (row, col)) = true).
  { unfold b1. by rewrite (cell_update_eq n _ _ (row, col)). }
  split.
  - induction 1 as [|p q Hp IH Hq Hadj Ho Hz]; [constructor|].
    assert (q ≠ (row, col)).
    { intros ->. apply openable_fields in Ho as (Hr & _). congruence. }
    apply (open_region_step _ _ _ p q); try done.
    + unfold openable in *. by rewrite <- Hb1.
    + by rewrite <- Hb1.
  - induction 1 as [|p q Hp IH Hq Hadj Ho Hz]; [constructor|].
    destruct (decide (q = (row, col))) as [->|Hne]; [constructor|].
    apply (open_region_step _ _ _ p q); try done.
    + unfold openable in *. by rewrite Hb1.
    + by rewrite Hb1.
Qed.

Lemma opened_by_click_region g row col q :
  wf_board (N g) (board g) → in_grid (N g) (row, col) →
  openable (board g) (row, col) →
  adjacent_mines (cell (board g) (row, col)) = 0 →
  in_grid (N g) q →
  opened_by_click g row col (row, col) q ↔
  openable (board g) q ∧
  ∃ p, open_region (N g) (board g) (row, col) p ∧ adjacent p q.
Proof.
  intros Hwf Hs Hos Hz Hq. unfold opened_by_click, flood_target.
  set (b1 := update_cell (set_is_revealed true) (board g) row col).
  assert (Hb1 : q ≠ (row, col) → cell b1 q = cell (board g) q).
  { intros Hne. by apply (cell_update_ne (N g) _ _ (row, col) q). }
  split.
  - intros [->|[_ [Ho (p & Hp & Hadj)]]].
    + split; [done|]. exists (row, col). split; [constructor|].
      unfold adjacent. simpl. lia.
    + assert (q ≠ (row, col)).
      { intros ->. apply openable_fields in Ho as (Hr & _).
        unfold b1 in Hr. rewrite (cell_update_eq (N g) _ _ (row, col)) in Hr; done. }
      split; [unfold openable in *; by rewrite <- Hb1|].
      exists p. split; [|done].
      by apply (open_region_before_click (N g) (board g) row col p Hwf Hs).
  - intros [Ho (p & Hp & Hadj)].
    destruct (decide (q = (row, col))) as [->|Hne]; [by left|].
    right. split; [done|]. split; [unfold openable in *; by rewrite Hb1|].
    exists p. split; [|done].
    by apply (open_region_before_click (N g) (board g) row col p Hwf Hs).
Qed.

(** C2, amended. In a game in progress, the reveal of a hidden, unflagged
    cell that is no mine and has no adjacent mine leaves revealed exactly
    the cells revealed before, together with every hidden, unflagged cell
    that is no mine and touches (or belongs to) the explored region: the
    maximal 8-connected region around the clicked cell made of hidden,
    unflagged cells that are no mines and have no adjacent mine. No mine
    and no flagged cell is revealed, and nothing else about a cell
    changes. *)
Theorem flood_fill_reveals g row col :
  wf_board (N g) (board g) → game_over g = false →
  in_grid (N g) (row, col) →
  openable (board g) (row, col) →
  adjacent_mines (cell (board g) (row, col)) = 0 →
  ∃ g', left_click g row col = Return g' ∧
    ∀ q, in_grid (N g) q →
      (is_revealed (cell (board g') q) = true ↔
       is_revealed (cell (board g) q) = true ∨
       (openable (board g) q ∧
        ∃ p, open_region (N g) (board g) (row, col) p ∧ adjacent p q)) ∧
      is_mine (cell (board g') q) = is_mine (cell (board g) q) ∧
      is_flagged (cell (board g') q) = is_flagged (cell (board g) q) ∧
      adjacent_mines (cell (board g') q) = adjacent_mines (cell (board g) q).
Proof.
  intros Hwf Hgo Hs Hos Hz.
  assert (Hn : 0 <= N g) by (destruct Hs as [? _]; simpl in *; lia).
  pose proof (locate_in_grid _ _ _ _ Hwf Hs) as Hloc.
  pose proof (locate_in_grid_pos _ _ _ _ _ _ Hwf Hs Hloc) as Ep.
  pose proof Hos as (Hr & Hf & Hm)%openable_fields.
  destruct (left_click_safe_cell g row col _ _ Hn Hwf Hgo Hloc)
    as (b2 & Hclick & Hwf2 & Hcells); try (rewrite Ep; done).
  rewrite Ep in Hcells.
  exists (if _check_win (N g) b2
          then finish "Congratulations, you won!" (with_board b2 g)
          else with_board b2 g).
  split; [done|]. intros q Hq.
  assert (Eb : board (if _check_win (N g) b2
                      then finish "Congratulations, you won!" (with_board b2 g)
                      else with_board b2 g) = b2)
    by by destruct (_check_win _ _).
  rewrite Eb. destruct (Hcells q Hq) as [Hyes Hcase].
  pose proof (opened_by_click_region g row col q Hwf Hs Hos Hz Hq) as Hopen.
  split.
  - split.
    + destruct Hcase as [Hc|[Ho Hc]].
      * rewrite Hc. by left.
      * intros _. right. by apply Hopen.
    + intros [Hrq|Ht].
      * destruct Hcase as [->|[_ ->]]; done.
      * by rewrite Hyes by by apply Hopen.
  - destruct Hcase as [->|[_ ->]]; done.
Qed.

Lemma flood_fill_reveals_witness :
  ∃ g', left_click corner_game 0 0 = Return g' ∧
    ∀ q, in_grid (N corner_game) q →
      (is_revealed (cell (board g') q) = true ↔
       is_revealed (cell (board corner_game) q) = true ∨
       (openable (board corner_game) q ∧
        ∃ p, open_region (N corner_game) (board corner_game) (0, 0) p
             ∧ adjacent p q)) ∧
      is_mine (cell (board g') q) = is_mine (cell (board corner_game) q) ∧
      is_flagged (cell (board g') q) = is_flagged (cell (board corner_game) q) ∧
      adjacent_mines (cell (board g') q)
      = adjacent_mines (cell (board corner_game) q).
Proof.
  apply (flood_fill_reveals corner_game 0 0).
  - apply (inv_wf _ (reachable_inv _ corner_game_reachable)).
  - reflexivity.
  - unfold in_grid. simpl. lia.
  - by vm_compute.
  - by vm_compute.
Defined.

(** C10. On every N x N board the work-list loop of the flood fill ends.
    When [left_click] calls the flood fill, the clicked cell is already
    revealed; from such a board the loop ends after at most N * N pops, no
    position is popped twice (so none was pushed twice), and every position
    other than the first was hidden before the loop and is revealed after
    it, as it was pushed when it was revealed. *)
Theorem flood_fill_terminates n b row col :
  0 < n → wf_board n b →
  is_Some (_flood_fill n b row col) ∧
  (in_grid n (row, col) → is_revealed (cell_at b row col) = true →
   ∃ b' popped,
     flood_loop (Z.to_nat (n * n)) n [(row, col)] b = Some (b', popped) ∧
     _flood_fill n b row col = Some b' ∧
     NoDup popped ∧
     Z.of_nat (length popped) <= n * n ∧
     ∀ p, p ∈ popped →
       p = (row, col) ∨
       (in_grid n p ∧ is_revealed (cell b p) = false
        ∧ is_revealed (cell b' p) = true)).
Proof.
  intros Hn Hwf. split; [apply flood_fill_returns; [lia|done]|].
  intros Hs Hr.
  assert (Hhid : (S (hidden_count n b) ≤ Z.to_nat (n * n))%nat).
  { apply (hidden_count_revealed n b (row, col)); [lia|done|done]. }
  destruct (flood_loop_terminates n (Z.to_nat (n * n)) [(row, col)] b Hwf)
    as [[b' popped] Hloop]; [simpl; lia|].
  exists b', popped. split; [done|].
  destruct (flood_loop_trace n b (row, col) _ _ _ Hwf (λ _, Hr) Hloop)
    as (Hnd & Horigin & Hlen).
  split_and!; try done.
  - unfold _flood_fill.
    by rewrite (flood_loop_fuel_mono _ _ (S (Z.to_nat (n * n))) _ _ _ Hloop) by lia.
  - lia.
Qed.

Lemma flood_fill_terminates_witness :
  let b := update_cell (set_is_revealed true) (board corner_game) 0 0 in
  ∃ b' popped,
    flood_loop (Z.to_nat (3 * 3)) 3 [(0, 0)] b = Some (b', popped) ∧
    _flood_fill 3 b 0 0 = Some b' ∧
    NoDup popped ∧
    Z.of_nat (length popped) <= 3 * 3 ∧
    ∀ p, p ∈ popped →
      p = (0, 0) ∨
      (in_grid 3 p ∧ is_revealed (cell b p) = false
       ∧ is_revealed (cell b' p) = true).
Proof.
  apply (flood_fill_terminates 3
           (update_cell (set_is_revealed true) (board corner_game) 0 0) 0 0).
  - lia.
  - apply wf_update_cell, (inv_wf _ (reachable_inv _ corner_game_reachable)).
  - unfold in_grid. simpl. lia.
  - by vm_compute.
Defined.

(** * Further properties of the engine *)

(** ** Boards of the same shape *)

Lemma locate_same_shape n b b' row col :
  wf_board n b → wf_board n b' → locate b row col = locate b' row col.
Proof.
  intros Hwf Hwf'. destruct (locate b' row col) as [[i j]|] eqn:E.
  - apply (locate_Some n); [done|]. by apply (locate_Some n b') in E.
  - apply (locate_None n); [done|]. by apply (locate_None n b') in E.
Qed.

(** Two N x N boards with the same cells are the same board. *)
Lemma board_ext n b b' :
  wf_board n b → wf_board n b' →
  (∀ p, in_grid n p → cell b p = cell b' p) → b = b'.
Proof.
  intros Hwf Hwf' Hcells.
  rewrite (board_tabulate n b Hwf), (board_tabulate n b' Hwf').
  apply list_fmap_ext. intros _ r Hr%list_elem_of_lookup_2%elem_of_py_range.
  apply list_fmap_ext. intros _ c Hc%list_elem_of_lookup_2%elem_of_py_range.
  by apply (Hcells (r, c)).
Qed.

Lemma with_board_board g : with_board (board g) g = g.
Proof. by destruct g. Qed.

Lemma set_is_flagged_twice x :
  set_is_flagged (negb (is_flagged (set_is_flagged (negb (is_flagged x)) x)))
    (set_is_flagged (negb (is_flagged x)) x) = x.
Proof. destruct x as [m a r f]. simpl. by rewrite negb_involutive. Qed.

(** ** Repeated calls *)

(** X1. A reveal that returns has done all it can do at its cell: the same
    call on the game it left returns that game unchanged. *)
Theorem reveal_twice g row col g' :
  wf_board (N g) (board g) → 0 <= N g →
  left_click g row col = Return g' →
  left_click g' row col = Return g'.
Proof.
  intros Hwf Hn Hclick.
  pose proof (perform_step g (LeftClick row col) Hn Hwf) as Hstep.
  simpl in Hstep. rewrite Hclick in Hstep.
  inversion Hstep as
    [ a' Hgo | | | row' col' i j p Hgo Hloc Hp Hblock
    | row' col' i j b2 p Hgo Hloc Hp Hf Hr Hm Hwf2 Hc2
    | row' col' i j b2 p Hgo Hloc Hp Hf Hr Hm Hwf2 Hc2 | | ]; subst.
  - done.
  - done.
  - unfold left_click. done.
  - destruct (_check_win (N g) b2) eqn:Hw; [unfold left_click; done|].
    assert (Hloc2 : locate b2 row col = Some (i, j)).
    { by rewrite <- (locate_same_shape (N g) (board g) b2). }
    destruct (locate_cell _ _ _ _ _ _ Hwf2 Hloc2) as (_ & Ecell & _).
    destruct (Hc2 p Hp) as [Hopen _].
    unfold left_click. simpl. rewrite Hgo, Hloc2, Ecell. fold p.
    rewrite Hopen by by left. simpl. by rewrite orb_true_r.
Qed.

Lemma reveal_twice_witness :
  ∃ g', left_click corner_game 1 1 = Return g' ∧ left_click g' 1 1 = Return g'.
Proof.
  exists (play corner_game [LeftClick 1 1]). split; [by vm_compute|].
  apply (reveal_twice corner_game 1 1).
  - apply (inv_wf _ (reachable_inv _ corner_game_reachable)).
  - simpl. lia.
  - by vm_compute.
Defined.

(** X2. Two toggle-flag calls at the same place cancel: if the first
    returns a game, the second returns the game the first began with. *)
Theorem toggle_flag_twice g row col g1 :
  wf_board (N g) (board g) → 0 <= N g →
  right_click g row col = Return g1 →
  right_click g1 row col = Return g.
Proof.
  intros Hwf Hn Hclick.
  pose proof (perform_step g (RightClick row col) Hn Hwf) as Hstep.
  simpl in Hstep. rewrite Hclick in Hstep.
  inversion Hstep as
    [ a' Hgo | | | | | | row' col' i j p Hgo Hloc Hp Hr
    | row' col' i j b2 p Hgo Hloc Hp Hr Hwf2 Hc2 ]; subst.
  - done.
  - done.
  - assert (Hloc2 : locate b2 row col = Some (i, j)).
    { by rewrite <- (locate_same_shape (N g) (board g) b2). }
    assert (Hp2 : cell b2 p = set_is_flagged (negb (is_flagged (cell (board g) p)))
                                (cell (board g) p)).
    { rewrite Hc2 by done. by rewrite decide_True. }
    destruct (right_click_hidden_cell (with_board b2 g) row col i j)
      as (b3 & -> & Hwf3 & Hc3); try done.
    { simpl. fold p. by rewrite Hp2. }
    simpl in *. f_equal. rewrite <- (with_board_board g) at 2.
    unfold with_board. simpl. f_equal.
    apply (board_ext (N g)); try done.
    intros q Hq. rewrite Hc3 by done. fold p. destruct (decide (p = q)) as [<-|Hne].
    + rewrite Hp2. apply set_is_flagged_twice.
    + rewrite Hc2 by done. by rewrite decide_False.
Qed.

Lemma toggle_flag_twice_witness :
  ∃ g1, right_click corner_game 2 2 = Return g1 ∧
        is_flagged (cell (board g1) (2, 2)) = true ∧
        right_click g1 2 2 = Return corner_game.
Proof.
  exists (play corner_game [RightClick 2 2]).
  split; [by vm_compute|]. split; [by vm_compute|].
  apply (toggle_flag_twice corner_game 2 2).
  - apply (inv_wf _ (reachable_inv _ corner_game_reachable)).
  - simpl. lia.
  - by vm_compute.
Defined.

(** ** Reveal of a numbered cell *)

(** X3. In a game in progress, the reveal of a hidden, unflagged cell that
    is no mine and whose [adjacent_mines] is not 0 reveals that cell and
    changes no other cell: there is no flood fill. *)
Theorem reveal_numbered_cell g row col :
  wf_board (N g) (board g) → game_over g = false →
  in_grid (N g) (row, col) →
  openable (board g) (row, col) →
  adjacent_mines (cell (board g) (row, col)) ≠ 0 →
  ∃ g', left_click g row col = Return g' ∧
    ∀ q, in_grid (N g) q →
      cell (board g') q
      = if decide (q = (row, col))
        then set_is_revealed true (cell (board g) q) else cell (board g) q.
Proof.
  intros Hwf Hgo Hs Hos Hnz.
  assert (Hn : 0 <= N g) by (destruct Hs as [? _]; simpl in *; lia).
  pose proof (locate_in_grid _ _ _ _ Hwf Hs) as Hloc.
  pose proof (locate_in_grid_pos _ _ _ _ _ _ Hwf Hs Hloc) as Ep.
  pose proof Hos as (Hr & Hf & Hm)%openable_fields.
  destruct (left_click_safe_cell g row col _ _ Hn Hwf Hgo Hloc)
    as (b2 & Hclick & Hwf2 & Hcells); try (rewrite Ep; done).
  rewrite Ep in Hcells.
  eexists. split; [exact Hclick|]. intros q Hq.
  assert (Eb : board (if _check_win (N g) b2
                      then finish "Congratulations, you won!" (with_board b2 g)
                      else with_board b2 g) = b2)
    by by destruct (_check_win _ _).
  rewrite Eb. destruct (Hcells q Hq) as [Hyes Hcase].
  destruct (decide (q = (row, col))) as [->|Hne].
  - apply Hyes. by left.
  - destruct Hcase as [?|[[?|[? _]] _]]; done.
Qed.

Lemma reveal_numbered_cell_witness :
  ∃ g', left_click corner_game 1 1 = Return g' ∧
    ∀ q, in_grid (N corner_game) q →
      cell (board g') q
      = if decide (q = (1, 1))
        then set_is_revealed true (cell (board corner_game) q)
        else cell (board corner_game) q.
Proof.
  apply (reveal_numbered_cell corner_game 1 1).
  - apply (inv_wf _ (reachable_inv _ corner_game_reachable)).
  - reflexivity.
  - unfold in_grid. simpl. lia.
  - by vm_compute.
  - by vm_compute.
Defined.

(** ** Revealed cells *)

Lemma state_after_cells g a :
  reachable g →
  N (state_after g (perform g a)) = N g ∧
  ∀ q, in_grid (N g) q → is_revealed (cell (board g) q) = true →
       cell (board (state_after g (perform g a))) q = cell (board g) q.
Proof.
  intros Hg. pose proof (reachable_inv g Hg) as Hinv.
  assert (Hstep : click_step g a (perform g a)).
  { apply perform_step; [|apply Hinv]. pose proof (inv_size g Hinv). lia. }
  destruct (perform g a) as [g'|g'|] eqn:E; simpl; [| |done].
  - destruct (click_step_cells g a g' (inv_wf g Hinv) Hstep) as (-> & _ & _ & Hcells).
    split; [done|]. intros q Hq Hr. by destruct (Hcells q Hq) as (_ & _ & -> & _).
  - by apply click_step_raises in Hstep as ->.
Qed.

(** X4. A revealed cell is final: whatever calls follow, none of its four
    fields changes again. *)
Theorem revealed_cell_is_final g acts p :
  reachable g → in_grid (N g) p →
  is_revealed (cell (board g) p) = true →
  cell (board (play g acts)) p = cell (board g) p.
Proof.
  revert g. induction acts as [|a acts IH]; intros g Hg Hp Hr; [done|].
  simpl. destruct (state_after_cells g a Hg) as [EN Hcells].
  pose proof (Hcells p Hp Hr) as Ec.
  rewrite IH.
  - done.
  - by apply reachable_state_after.
  - by rewrite EN.
  - by rewrite Ec.
Qed.

Lemma revealed_cell_is_final_witness :
  let g := play corner_game [LeftClick 1 1] in
  cell (board (play g [RightClick 1 1; LeftClick 2 2; LeftClick 0 0])) (1, 1)
  = cell (board g) (1, 1).
Proof.
  apply (revealed_cell_is_final (play corner_game [LeftClick 1 1])).
  - apply reachable_play, corner_game_reachable.
  - by vm_compute.
  - by vm_compute.
Defined.

(** ** The range of the adjacency counts *)

Lemma mine_neighbors_range n b p : 0 <= mine_neighbors n b p <= 8.
Proof.
  unfold mine_neighbors, grid_neighbors.
  set (l := (λ d : pos, (p.1 + d.1, p.2 + d.2)) <$> moore_offsets).
  assert (length l = 8%nat) by (unfold l; by rewrite length_fmap).
  pose proof (length_filter (λ q, is_mine (cell b q) = true)
                (filter (in_grid n) l)).
  pose proof (length_filter (in_grid n) l). lia.
Qed.

(** X5. In every game that exists at run time, [adjacent_mines] is -1
    exactly on the mines and lies between 0 and 8 on every other cell. *)
Theorem adjacent_mines_range g p :
  reachable g → in_grid (N g) p →
  (adjacent_mines (cell (board g) p) = -1 ↔ is_mine (cell (board g) p) = true) ∧
  (is_mine (cell (board g) p) = false →
   0 <= adjacent_mines (cell (board g) p) <= 8).
Proof.
  intros Hg%reachable_inv Hp. rewrite (inv_adjacency g Hg p Hp).
  unfold adjacency_value. destruct (is_mine (cell (board g) p)) eqn:Hm.
  - split; [done|]. done.
  - rewrite count_window_mines_neighbors by done.
    pose proof (mine_neighbors_range (N g) (board g) p). split; [|done].
    split; [lia|done].
Qed.

Lemma adjacent_mines_range_witness :
  (adjacent_mines (cell (board corner_game) (2, 2)) = -1
   ↔ is_mine (cell (board corner_game) (2, 2)) = true) ∧
  (is_mine (cell (board corner_game) (2, 2)) = false →
   0 <= adjacent_mines (cell (board corner_game) (2, 2)) <= 8).
Proof.
  apply (adjacent_mines_range corner_game (2, 2)).
  - apply corner_game_reachable.
  - unfold in_grid. simpl. lia.
Defined.

(** ** Outcome of a game *)

Lemma new_game_outcome n m mines :
  0 < n → is_sample (all_positions n) m mines →
  outcome_inv (MinesweeperWindow n m mines).
Proof.
  intros Hn (_ & Hsub & _). split; simpl; [|done].
  intros _. split; [done|]. intros p Hp _.
  destruct (new_board_cell n mines p Hsub Hp) as [_ Hc]. simpl in Hc.
  by rewrite Hc.
Qed.

Lemma click_step_outcome g a g' :
  game_inv g → outcome_inv g → click_step g a (Return g') → outcome_inv g'.
Proof.
  intros Hinv [Hprog Hover] Hstep. pose proof (inv_wf g Hinv) as Hwf.
  inversion Hstep as
    [ a' Hgo | | | row col i j p Hgo Hloc Hp Hblock
    | row col i j b2 p Hgo Hloc Hp Hf Hr Hm Hwf2 Hc2
    | row col i j b2 p Hgo Hloc Hp Hf Hr Hm Hwf2 Hc2
    | row col i j p Hgo Hloc Hp Hr
    | row col i j b2 p Hgo Hloc Hp Hr Hwf2 Hc2 ]; subst; try done.
  - split; simpl; [done|]. intros _. right. split; [done|]. split.
    + exists p. split; [done|]. rewrite Hc2 by done. by rewrite Hm.
    + intros q Hq. rewrite Hc2 by done.
      destruct (is_mine (cell (board g) q)) eqn:Hmq; [done|]. by rewrite Hmq.
  - destruct (Hprog Hgo) as [Hlabel Hhidden].
    assert (Hhidden2 : ∀ q, in_grid (N g) q → is_mine (cell b2 q) = true →
                            is_revealed (cell b2 q) = false).
    { intros q Hq. destruct (Hc2 q Hq) as [_ [->|[Hop ->]]]; [by apply Hhidden|].
      apply (opened_by_click_openable g row col i j q Hwf Hloc Hq) in Hop.
      simpl. intros Hmq. destruct Hop as [->|Hop]; [fold p in Hmq; congruence|].
      apply openable_fields in Hop as (_ & _ & ?). congruence. }
    destruct (_check_win (N g) b2) eqn:Hw; split; simpl; try done.
    + intros _. by left.
    + by rewrite Hgo.
  - destruct (Hprog Hgo) as [Hlabel Hhidden].
    split; simpl; [|by rewrite Hgo]. intros _. split; [done|].
    intros q Hq. rewrite Hc2 by done.
    destruct (decide (p = q)) as [<-|Hne]; [|by apply Hhidden].
    simpl. intros Hmp. by rewrite Hr.
Qed.

Lemma reachable_outcome g : reachable g → outcome_inv g.
Proof.
  induction 1 as [n m mines Hn Hm Hs|g a g' Hreach IH Hperf].
  - by apply new_game_outcome.
  - pose proof (reachable_inv g Hreach) as Hinv.
    apply (click_step_outcome g a g' Hinv IH). rewrite <- Hperf.
    apply perform_step; [|apply Hinv]. pose proof (inv_size g Hinv). lia.
Qed.

(** X6. In a game that exists at run time, the text of [info_label] tells
    whether the game is in progress, and a mine is revealed only in a lost
    game: while the game is in progress or won, every mine is hidden. *)
Theorem mine_revealed_only_when_lost g :
  reachable g →
  (game_over g = false ↔ info_label g = start_text) ∧
  ∀ p, in_grid (N g) p →
    is_mine (cell (board g) p) = true → is_revealed (cell (board g) p) = true →
    game_over g = true ∧ info_label g = lost_text.
Proof.
  intros [Hprog Hover]%reachable_outcome. split.
  - split; [by intros [? _]%Hprog|].
    intros Hl. destruct (game_over g) eqn:Hgo; [|done].
    destruct (Hover eq_refl) as [[Hl' _]|[Hl' _]]; rewrite Hl in Hl'; done.
  - intros p Hp Hm Hr. destruct (game_over g) eqn:Hgo.
    + split; [done|].
      destruct (Hover eq_refl) as [(_ & _ & Hh)|[? _]]; [|done].
      rewrite (Hh p Hp Hm) in Hr. done.
    + destruct (Hprog eq_refl) as [_ Hh]. rewrite (Hh p Hp Hm) in Hr. done.
Qed.

Lemma mine_revealed_only_when_lost_witness :
  let g := play diagonal_game [LeftClick 0 0] in
  (game_over g = false ↔ info_label g = start_text) ∧
  ∀ p, in_grid (N g) p →
    is_mine (cell (board g) p) = true → is_revealed (cell (board g) p) = true →
    game_over g = true ∧ info_label g = lost_text.
Proof.
  apply (mine_revealed_only_when_lost (play diagonal_game [LeftClick 0 0])).
  apply reachable_play, diagonal_game_reachable.
Defined.

(** X7. A game whose [info_label] shows the winning text is over; its
    revealed cells are exactly the cells that are no mines, so that the
    number of hidden cells is M. *)
Theorem won_game_board g :
  reachable g → info_label g = won_text →
  game_over g = true ∧
  (∀ p, in_grid (N g) p →
     is_revealed (cell (board g) p) = negb (is_mine (cell (board g) p))) ∧
  Z.of_nat (hidden_count (N g) (board g)) = M g.
Proof.
  intros Hg Hl. pose proof (reachable_outcome g Hg) as [Hprog Hover].
  pose proof (reachable_inv g Hg) as Hinv.
  destruct (game_over g) eqn:Hgo.
  2:{ destruct (Hprog eq_refl) as [Hl' _]. rewrite Hl in Hl'. done. }
  destruct (Hover eq_refl) as [(_ & Hw & Hh)|[Hl' _]].
  2:{ rewrite Hl in Hl'. done. }
  rewrite check_win_spec in Hw.
  assert (Hcells : ∀ p, in_grid (N g) p →
    is_revealed (cell (board g) p) = negb (is_mine (cell (board g) p))).
  { intros p Hp. destruct (is_mine (cell (board g) p)) eqn:Hm; simpl.
    - by apply Hh.
    - by apply Hw. }
  split; [done|]. split; [done|].
  rewrite <- (inv_mine_count g Hinv).
  rewrite (mine_count_positions (N g)) by apply Hinv.
  unfold hidden_count. f_equal. apply length_filter_ext.
  intros p Hp%elem_of_all_positions. rewrite (Hcells p Hp).
  by destruct (is_mine (cell (board g) p)).
Qed.

Lemma won_game_board_witness :
  let g := play corner_game [LeftClick 0 0] in
  game_over g = true ∧
  (∀ p, in_grid (N g) p →
     is_revealed (cell (board g) p) = negb (is_mine (cell (board g) p))) ∧
  Z.of_nat (hidden_count (N g) (board g)) = M g.
Proof.
  apply (won_game_board (play corner_game [LeftClick 0 0])).
  - apply reachable_play, corner_game_reachable.
  - by vm_compute.
Defined.

(** X8. A game whose [info_label] shows the losing text is over; all its
    mines are revealed, and it has at least one. *)
Theorem lost_game_board g :
  reachable g → info_label g = lost_text →
  game_over g = true ∧ 1 <= M g ∧
  ∀ p, in_grid (N g) p → is_mine (cell (board g) p) = true →
       is_revealed (cell (board g) p) = true.
Proof.
  intros Hg Hl. pose proof (reachable_outcome g Hg) as [Hprog Hover].
  pose proof (reachable_inv g Hg) as Hinv.
  destruct (game_over g) eqn:Hgo.
  2:{ destruct (Hprog eq_refl) as [Hl' _]. rewrite Hl in Hl'. done. }
  destruct (Hover eq_refl) as [(Hl' & _)|(_ & (p & Hp & Hm) & Hall)].
  { rewrite Hl in Hl'. done. }
  split; [done|]. split; [|done].
  rewrite <- (inv_mine_count g Hinv).
  rewrite (mine_count_positions (N g)) by apply Hinv.
  assert (p ∈ filter (λ q, is_mine (cell (board g) q) = true)
                 (all_positions (N g))) as Hin.
  { apply list_elem_of_filter. split; [done|]. by apply elem_of_all_positions. }
  destruct (filter _ _); [by apply elem_of_nil in Hin|]. simpl. lia.
Qed.

Lemma lost_game_board_witness :
  let g := play diagonal_game [LeftClick 0 0] in
  game_over g = true ∧ 1 <= M g ∧
  ∀ p, in_grid (N g) p → is_mine (cell (board g) p) = true →
       is_revealed (cell (board g) p) = true.
Proof.
  apply (lost_game_board (play diagonal_game [LeftClick 0 0])).
  - apply reachable_play, diagonal_game_reachable.
  - by vm_compute.
Defined.

(** ** Negative indices *)

Lemma locate_wrap n b row col :
  wf_board n b →
  (- n <= row < 0 → locate b row col = locate b (row + n) col) ∧
  (- n <= col < 0 → locate b row col = locate b row (col + n)).
Proof.
  intros Hwf. split; intros Hneg.
  - destruct (locate b (row + n) col) as [[i j]|] eqn:E.
    + apply (locate_Some n) in E; [|done]. apply (locate_Some n); [done|]. lia.
    + apply (locate_None n) in E; [|done]. apply (locate_None n); [done|]. lia.
  - destruct (locate b row (col + n)) as [[i j]|] eqn:E.
    + apply (locate_Some n) in E; [|done]. apply (locate_Some n); [done|]. lia.
    + apply (locate_None n) in E; [|done]. apply (locate_None n); [done|]. lia.
Qed.

Lemma right_click_same_place g row col row' col' :
  locate (board g) row col = locate (board g) row' col' →
  right_click g row col = right_click g row' col'.
Proof.
  intros E. unfold right_click.
  by rewrite E, (cell_at_same_place _ _ _ _ _ E), (update_cell_same_place _ _ _ _ _ _ E).
Qed.

(** X9. The toggle-flag call does not reject a negative index down to -N:
    it acts on the cell N rows (or columns) further, as the same call with
    the index plus N does. *)
Theorem right_click_negative_index g row col :
  wf_board (N g) (board g) →
  (- N g <= row < 0 → right_click g row col = right_click g (row + N g) col) ∧
  (- N g <= col < 0 → right_click g row col = right_click g row (col + N g)).
Proof.
  intros Hwf. destruct (locate_wrap (N g) (board g) row col Hwf) as [Hr Hc].
  split; intros Hneg; apply right_click_same_place; auto.
Qed.

Lemma right_click_negative_index_witness :
  right_click corner_game (-1) 0 = right_click corner_game (-1 + N corner_game) 0.
Proof.
  apply (right_click_negative_index corner_game (-1) 0).
  - apply (inv_wf _ (reachable_inv _ corner_game_reachable)).
  - simpl. lia.
Defined.

(** ** A board without mines *)

(** Where every cell can be opened and has no adjacent mine, the explored
    region is the whole grid. *)
Lemma open_region_whole_grid n b start :
  in_grid n start →
  (∀ q, in_grid n q → openable b q ∧ adjacent_mines (cell b q) = 0) →
  ∀ q, in_grid n q → open_region n b start q.
Proof.
  intros Hs Hall.
  cut (∀ (k : nat) q, in_grid n q →
         Z.abs (q.1 - start.1) + Z.abs (q.2 - start.2) <= Z.of_nat k →
         open_region n b start q).
  { intros Hk q Hq.
    apply (Hk (Z.to_nat (Z.abs (q.1 - start.1) + Z.abs (q.2 - start.2))) q Hq). lia. }
  induction k as [|k IH]; intros [qr qc] Hq Hd.
  - destruct start as [sr sc]. simpl in *.
    assert (qr = sr ∧ qc = sc) as [-> ->] by lia. constructor.
  - destruct start as [sr sc]. destruct Hs as [Hsr Hsc], Hq as [Hqr Hqc].
    simpl in *.
    destruct (decide (qr = sr ∧ qc = sc)) as [[-> ->]|Hne]; [constructor|].
    set (q' := (if decide (qr = sr) then qr else if decide (sr < qr) then qr - 1 else qr + 1,
                if decide (qr = sr) then (if decide (sc < qc) then qc - 1 else qc + 1) else qc)).
    assert (Hq' : in_grid n q').
    { unfold q', in_grid. simpl. repeat case_decide; lia. }
    assert (Hd' : Z.abs (q'.1 - sr) + Z.abs (q'.2 - sc) <= Z.of_nat k).
    { unfold q'. simpl. repeat case_decide; lia. }
    assert (Hadj : adjacent q' (qr, qc)).
    { unfold q', adjacent. simpl. repeat case_decide; lia. }
    destruct (Hall (qr, qc)) as [Ho Hz]; [unfold in_grid; simpl; lia|].
    apply (open_region_step n b (sr, sc) q' (qr, qc)); try done.
    by apply IH.
Qed.

(** X10. On a board generated with M = 0, the first reveal, wherever it
    is, reveals every cell and wins the game. *)
Theorem first_click_wins_without_mines n row col :
  0 < n → in_grid n (row, col) →
  ∃ g', left_click (MinesweeperWindow n 0 []) row col = Return g' ∧
    game_over g' = true ∧ info_label g' = won_text ∧
    ∀ q, in_grid n q → is_revealed (cell (board g') q) = true.
Proof.
  intros Hn Hs. set (g := MinesweeperWindow n 0 []).
  assert (Hsample : is_sample (all_positions n) 0 []).
  { split_and!; [constructor| |done]. intros p Hp. by apply elem_of_nil in Hp. }
  assert (Hinv : game_inv g) by (apply new_game_inv; [done|lia|done]).
  pose proof (inv_wf g Hinv) as Hwf. change (N g) with n in Hwf.
  assert (Hcells : ∀ q, in_grid n q →
            openable (board g) q ∧ adjacent_mines (cell (board g) q) = 0).
  { intros q Hq.
    destruct (new_board_cell n [] q) as [Hc0 Hc]; [by intros p Hp%elem_of_nil|done|].
    simpl in Hc0, Hc.
    assert (Hz : adjacency_value n (empty_board n) q = 0).
    { unfold adjacency_value. rewrite Hc0. simpl.
      rewrite count_window_mines_filter.
      rewrite (length_filter_ext _ (λ _, False)).
      - clear. induction (neighborhood n q.1 q.2) as [|x l IH]; [done|].
        by rewrite filter_cons, decide_False by tauto.
      - intros p _. rewrite cell_empty_board. simpl. split; [done|tauto]. }
    unfold openable.
    change (board g) with (_calculate_adjacency n (empty_board n)).
    rewrite Hc, Hz. done. }
  destruct (Hcells (row, col) Hs) as [Hos Hz].
  pose proof (locate_in_grid _ _ _ _ Hwf Hs) as Hloc.
  pose proof (locate_in_grid_pos _ _ _ _ _ _ Hwf Hs Hloc) as Ep.
  pose proof Hos as (Hr & Hf & Hm)%openable_fields.
  destruct (left_click_safe_cell g row col _ _ ltac:(simpl; lia) Hwf eq_refl Hloc)
    as (b2 & Hclick & Hwf2 & Hc2); try (rewrite Ep; done).
  rewrite Ep in Hc2. change (N g) with n in *.
  assert (Hall : ∀ q, in_grid n q → is_revealed (cell b2 q) = true).
  { intros q Hq. destruct (Hc2 q Hq) as [Hyes _]. rewrite Hyes; [done|].
    apply (opened_by_click_region g row col q Hwf Hs Hos Hz Hq).
    split; [by apply Hcells|]. exists q. split.
    - by apply open_region_whole_grid.
    - unfold adjacent. lia. }
  assert (Hw : _check_win n b2 = true).
  { apply check_win_spec. intros q Hq _. by apply Hall. }
  rewrite Hw in Hclick. eexists. split; [exact Hclick|]. done.
Qed.

Lemma first_click_wins_without_mines_witness :
  ∃ g', left_click (MinesweeperWindow 2 0 []) 1 0 = Return g' ∧
    game_over g' = true ∧ info_label g' = won_text ∧
    ∀ q, in_grid 2 q → is_revealed (cell (board g') q) = true.
Proof.
  apply (first_click_wins_without_mines 2 1 0).
  - lia.
  - unfold in_grid. simpl. lia.
Defined.

(** * The display *)

(** ** The grid of buttons *)

Lemma for_in_preserves {A S} (P : S → Prop) xs (f : A → S → S) s :
  P s → (∀ x s, x ∈ xs → P s → P (f x s)) → P (for_in xs f s).
Proof.
  revert s. induction xs as [|x xs IH]; intros s Hs Hf; [done|].
  rewrite for_in_cons. apply IH.
  - apply Hf; [apply list_elem_of_here|done].
  - intros y s' Hy. apply Hf. by apply list_elem_of_further.
Qed.

Lemma for_in_sim {A S T} (R : S → T → Prop) xs
    (f : A → S → S) (g : A → T → T) s t :
  R s t → (∀ x s t, R s t → R (f x s) (g x t)) →
  R (for_in xs f s) (for_in xs g t).
Proof.
  intros Hst Hfg. revert s t Hst.
  induction xs as [|x xs IH]; intros s t Hst; [done|].
  rewrite !for_in_cons. by apply IH, Hfg.
Qed.

Lemma wf_buttons_lookup n bt i :
  wf_buttons n bt → (i < Z.to_nat n)%nat →
  ∃ btns, bt !! i = Some btns ∧ length btns = Z.to_nat n.
Proof.
  intros [Hlen Hrows] Hi.
  destruct (lookup_lt_is_Some_2 bt i) as [btns Hc]; [lia|].
  exists btns. split; [done|]. eapply Forall_lookup_1 in Hrows; eauto.
Qed.

Lemma locate_button_in_grid n bt r c :
  wf_buttons n bt → in_grid n (r, c) →
  locate_button bt r c = Some (Z.to_nat r, Z.to_nat c).
Proof.
  intros Hwf [Hr Hc]. simpl in *. pose proof Hwf as [Hlen _].
  unfold locate_button.
  rewrite py_index_in_range by lia. simpl.
  destruct (wf_buttons_lookup n bt (Z.to_nat r) Hwf) as (btns & E & Hl); [lia|].
  rewrite E. simpl. by rewrite py_index_in_range by lia.
Qed.

Lemma wf_update_button n b bt r c :
  wf_buttons n bt → wf_buttons n (_update_button b bt r c).
Proof.
  intros [Hlen Hrows]. unfold _update_button.
  destruct (locate_button bt r c) as [[i j]|]; [|done]. split.
  - by rewrite length_alter.
  - apply Forall_alter; [done|]. intros btns _ Hc. by rewrite length_alter.
Qed.

(** After [_update_button] the button shows the face of its cell, and the
    other buttons are as before. *)
Lemma button_update n b bt q p :
  wf_buttons n bt → in_grid n q → in_grid n p →
  button (_update_button b bt q.1 q.2) p
  = if decide (q = p) then button_face (cell b q) else button bt p.
Proof.
  intros Hwf Hq Hp. destruct q as [r c], p as [r' c'].
  unfold button, button_at. simpl.
  rewrite (locate_button_in_grid n) by eauto using wf_update_button.
  rewrite (locate_button_in_grid n bt r' c') by done.
  unfold _update_button. rewrite (locate_button_in_grid n bt r c) by done. simpl.
  destruct Hq as [Hr Hc], Hp as [Hr' Hc']. simpl in *.
  destruct (decide ((r, c) = (r', c'))) as [E|Hne].
  - simplify_eq.
    destruct (wf_buttons_lookup n bt (Z.to_nat r') Hwf) as (btns & E & Hl); [lia|].
    rewrite list_lookup_alter_eq, E. simpl. rewrite list_lookup_alter_eq.
    destruct (lookup_lt_is_Some_2 btns (Z.to_nat c')) as [x Ex]; [lia|].
    by rewrite Ex.
  - destruct (decide (Z.to_nat r = Z.to_nat r')) as [Er|Er].
    + rewrite <- Er, list_lookup_alter_eq.
      destruct (bt !! Z.to_nat r) as [btns|]; [|done]. simpl.
      rewrite list_lookup_alter_ne; [done|].
      intros Ec. apply Hne. f_equal; lia.
    + by rewrite list_lookup_alter_ne.
Qed.

(** A write to a cell followed by [_update_button] at the same place keeps
    the display in step with the board. *)
Lemma synced_write n f b bt q :
  wf_board n b → synced n b bt → in_grid n q →
  synced n (update_cell f b q.1 q.2)
           (_update_button (update_cell f b q.1 q.2) bt q.1 q.2).
Proof.
  intros Hwf [Hwfb Hs] Hq. split; [by apply wf_update_button|].
  intros p Hp. rewrite (button_update n) by done.
  destruct (decide (q = p)) as [<-|Hne]; [done|].
  rewrite (cell_update_ne n) by done. by apply Hs.
Qed.

Lemma synced_new n m mines :
  mines ⊆ all_positions n →
  synced n (board (MinesweeperWindow n m mines)) (init_buttons n).
Proof.
  intros Hsub. split.
  - unfold init_buttons. split; [by rewrite length_replicate|].
    apply Forall_replicate. by rewrite length_replicate.
  - intros p Hp. destruct (new_board_cell n mines p Hsub Hp) as [_ Hc].
    simpl in *. rewrite Hc. unfold button_face. simpl.
    unfold button, button_at.
    destruct (locate_button _ _ _) as [[i j]|] eqn:E; [|done]. simpl.
    unfold init_buttons.
    destruct (replicate _ _ !! i) as [btns|] eqn:Ei; [|done]. simpl.
    apply lookup_replicate in Ei as [-> _].
    destruct (replicate _ _ !! j) as [x|] eqn:Ej; [|done].
    by apply lookup_replicate in Ej as [-> _].
Qed.

(** ** The display never steers the game *)

Lemma show_all_mines_ui_board n b bt :
  (_show_all_mines_ui n (b, bt)).1 = _show_all_mines n b.
Proof.
  unfold _show_all_mines_ui, _show_all_mines.
  apply (for_in_sim (λ (s : Board * Buttons) (t : Board), s.1 = t)); [done|].
  intros r s t Hst.
  apply (for_in_sim (λ (s : Board * Buttons) (t : Board), s.1 = t)); [done|].
  intros c [b1 bt1] t1 Hst1. simpl in *. subst. by destruct (is_mine _).
Qed.

Lemma flood_visit_ui_board n r c b bt st :
  let s := flood_visit_ui n r c (b, bt, st) in
  (s.1.1, s.2) = flood_visit n r c (b, st).
Proof.
  unfold flood_visit_ui, flood_visit.
  apply (for_in_sim (λ (s : Board * Buttons * list pos) (t : Board * list pos),
                       (s.1.1, s.2) = t)); [done|].
  intros nr s t Hst.
  apply (for_in_sim (λ (s : Board * Buttons * list pos) (t : Board * list pos),
                       (s.1.1, s.2) = t)); [done|].
  intros nc [[b1 bt1] st1] [b2 st2] Hst1. simpl in *. simplify_eq.
  destruct (negb _ && negb _ && negb _); [|done]. by destruct (_ =? 0).
Qed.

Lemma flood_loop_ui_board fuel n st b bt :
  fst <$> flood_loop_ui fuel n st b bt = fst <$> flood_loop fuel n st b.
Proof.
  revert st b bt. induction fuel as [|fuel IH]; intros st b bt.
  { by destruct st as [|[r c] rest]. }
  destruct st as [|[r c] rest]; [done|]. simpl.
  pose proof (flood_visit_ui_board n r c b bt rest) as E. simpl in E.
  destruct (flood_visit_ui n r c (b, bt, rest)) as [[b1 bt1] st1].
  destruct (flood_visit n r c (b, rest)) as [b2 st2]. simpl in E. simplify_eq.
  rewrite IH. by destruct (flood_loop fuel n st2 b2) as [[b3 popped]|].
Qed.

Lemma flood_fill_ui_board n b bt row col :
  fst <$> _flood_fill_ui n b bt row col = _flood_fill n b row col.
Proof. apply flood_loop_ui_board. Qed.

(** The game part of a call on a window is the call on its game. *)
Lemma perform_ui_game w a : erase (perform_ui w a) = perform (game w) a.
Proof.
  destruct a as [row col|row col]; simpl.
  - unfold left_click_ui, left_click.
    destruct (game_over (game w)); [done|].
    destruct (locate _ _ _); [|done].
    destruct (is_flagged _ || is_revealed _); [done|].
    destruct (is_mine _).
    + pose proof (show_all_mines_ui_board (N (game w))
        (update_cell (set_is_revealed true) (board (game w)) row col)
        (_update_button
           (update_cell (set_is_revealed true) (board (game w)) row col)
           (buttons w) row col)) as E.
      destruct (_show_all_mines_ui _ _) as [b2 bt2]. simpl in *. by rewrite E.
    + destruct (_ =? 0).
      * rewrite <- (flood_fill_ui_board _ _ (_update_button
           (update_cell (set_is_revealed true) (board (game w)) row col)
           (buttons w) row col)).
        destruct (_flood_fill_ui _ _ _ _ _) as [[b2 bt2]|]; [|done]. simpl.
        by destruct (_check_win _ _).
      * by destruct (_check_win _ _).
  - unfold right_click_ui, right_click.
    destruct (game_over (game w)); [done|].
    destruct (locate _ _ _); [|done].
    by destruct (is_revealed _).
Qed.

(** ** The display follows the board *)

Lemma show_all_mines_ui_synced n b bt :
  wf_board n b → synced n b bt →
  wf_board n (_show_all_mines_ui n (b, bt)).1 ∧
  synced n (_show_all_mines_ui n (b, bt)).1 (_show_all_mines_ui n (b, bt)).2.
Proof.
  intros Hwf Hs. unfold _show_all_mines_ui.
  apply (for_in_preserves
    (λ s : Board * Buttons, wf_board n s.1 ∧ synced n s.1 s.2)); [done|].
  intros r s Hr%elem_of_py_range Hinv.
  apply (for_in_preserves
    (λ s : Board * Buttons, wf_board n s.1 ∧ synced n s.1 s.2)); [done|].
  intros c [b1 bt1] Hc%elem_of_py_range [Hwf1 Hs1]. simpl in *.
  destruct (is_mine _); [|done]. simpl. split; [by apply wf_update_cell|].
  by apply (synced_write n _ b1 bt1 (r, c)).
Qed.

Lemma flood_visit_ui_synced n r c b bt st :
  wf_board n b → synced n b bt →
  wf_board n (flood_visit_ui n r c (b, bt, st)).1.1 ∧
  synced n (flood_visit_ui n r c (b, bt, st)).1.1
           (flood_visit_ui n r c (b, bt, st)).1.2.
Proof.
  intros Hwf Hs. unfold flood_visit_ui.
  apply (for_in_preserves
    (λ s : Board * Buttons * list pos,
       wf_board n s.1.1 ∧ synced n s.1.1 s.1.2)); [done|].
  intros nr s [Hr _]%elem_of_window Hinv.
  apply (for_in_preserves
    (λ s : Board * Buttons * list pos,
       wf_board n s.1.1 ∧ synced n s.1.1 s.1.2)); [done|].
  intros nc [[b1 bt1] st1] [Hc _]%elem_of_window [Hwf1 Hs1]. simpl in *.
  destruct (negb _ && negb _ && negb _); [|done].
  assert (wf_board n (update_cell (set_is_revealed true) b1 nr nc) ∧
          synced n (update_cell (set_is_revealed true) b1 nr nc)
            (_update_button (update_cell (set_is_revealed true) b1 nr nc)
               bt1 nr nc)).
  { split; [by apply wf_update_cell|].
    by apply (synced_write n _ b1 bt1 (nr, nc)). }
  by destruct (_ =? 0).
Qed.

Lemma flood_loop_ui_synced fuel n st b bt b' bt' :
  wf_board n b → synced n b bt →
  flood_loop_ui fuel n st b bt = Some (b', bt') →
  wf_board n b' ∧ synced n b' bt'.
Proof.
  revert st b bt. induction fuel as [|fuel IH]; intros st b bt Hwf Hs H.
  { destruct st as [|[r c] rest]; [|done]. simpl in H. by simplify_eq. }
  destruct st as [|[r c] rest]; [simpl in H; by simplify_eq|]. simpl in H.
  destruct (flood_visit_ui_synced n r c b bt rest Hwf Hs) as [Hwf1 Hs1].
  destruct (flood_visit_ui n r c (b, bt, rest)) as [[b1 bt1] st1].
  by apply (IH st1 b1 bt1).
Qed.

(** A call at a grid position that returns leaves the display in step
    with the board. *)
Lemma perform_ui_synced w a w' :
  wf_board (N (game w)) (board (game w)) →
  synced (N (game w)) (board (game w)) (buttons w) →
  in_grid (N (game w))
    (match a with LeftClick row col | RightClick row col => (row, col) end) →
  perform_ui w a = WReturn w' →
  N (game w') = N (game w) ∧
  synced (N (game w)) (board (game w')) (buttons w').
Proof.
  intros Hwf Hs Hq Hperf. destruct a as [row col|row col]; simpl in Hperf.
  - unfold left_click_ui in Hperf.
    destruct (game_over (game w)); [by simplify_eq|].
    destruct (locate _ _ _); [|done].
    destruct (is_flagged _ || is_revealed _); [by simplify_eq|].
    set (b1 := update_cell (set_is_revealed true) (board (game w)) row col) in *.
    set (bt1 := _update_button b1 (buttons w) row col) in *.
    assert (Hwf1 : wf_board (N (game w)) b1) by by apply wf_update_cell.
    assert (Hs1 : synced (N (game w)) b1 bt1)
      by by apply (synced_write _ _ (board (game w)) (buttons w) (row, col)).
    destruct (is_mine _).
    + destruct (show_all_mines_ui_synced _ b1 bt1 Hwf1 Hs1) as [_ Hs2].
      destruct (_show_all_mines_ui _ _) as [b2 bt2]. by simplify_eq.
    + destruct (_ =? 0).
      * destruct (_flood_fill_ui _ _ _ _ _) as [[b2 bt2]|] eqn:E; [|done].
        destruct (flood_loop_ui_synced _ _ _ _ _ _ _ Hwf1 Hs1 E) as [_ Hs2].
        destruct (_check_win _ _); by simplify_eq.
      * destruct (_check_win _ _); by simplify_eq.
  - unfold right_click_ui in Hperf.
    destruct (game_over (game w)); [by simplify_eq|].
    destruct (locate _ _ _); [|done].
    destruct (is_revealed _); [by simplify_eq|]. simplify_eq. simpl.
    split; [done|].
    by apply (synced_write _ _ (board (game w)) (buttons w) (row, col)).
Qed.

Lemma reachable_ui_game w :
  reachable_ui w →
  reachable (game w) ∧ synced (N (game w)) (board (game w)) (buttons w).
Proof.
  induction 1 as [n m mines Hn Hm Hs|w row col mb w' Hw [Hg Hsync] Hpos Hpress].
  - split; [by apply reachable_new|]. apply synced_new. apply Hs.
  - unfold press in Hpress.
    destruct (mousePressEvent row col mb) as [a|] eqn:Ea; [|by simplify_eq].
    pose proof (perform_ui_game w a) as Eg. rewrite Hpress in Eg. simpl in Eg.
    split; [by apply (reachable_step (game w) a)|].
    pose proof (inv_wf _ (reachable_inv _ Hg)) as Hwf.
    assert (Hq : in_grid (N (game w))
      (match a with LeftClick row col | RightClick row col => (row, col) end)).
    { apply elem_of_all_positions in Hpos.
      destruct mb; simpl in Ea; by simplify_eq. }
    destruct (perform_ui_synced w a w' Hwf Hsync Hq Hpress) as [EN Hs'].
    by rewrite EN.
Qed.

(** ** Mouse presses *)

Lemma perform_in_grid_returns g a :
  reachable g →
  in_grid (N g)
    (match a with LeftClick row col | RightClick row col => (row, col) end) →
  ∃ g', perform g a = Return g'.
Proof.
  intros Hg Hq. pose proof (reachable_inv g Hg) as Hinv.
  pose proof (inv_wf g Hinv) as Hwf.
  assert (Hstep : click_step g a (perform g a)).
  { apply perform_step; [|done]. pose proof (inv_size g Hinv). lia. }
  destruct (perform g a) as [g'|g'|] eqn:E; [by eexists| |inversion Hstep].
  exfalso. inversion Hstep as [ | row col Hgo Hloc | row col Hgo Hloc | | | | | ];
    subst; simpl in Hq; by rewrite (locate_in_grid _ _ _ _ Hwf Hq) in Hloc.
Qed.

Lemma press_returns w row col mb :
  reachable_ui w → (row, col) ∈ all_positions (N (game w)) →
  ∃ w', press w row col mb = WReturn w'.
Proof.
  intros [Hg _]%reachable_ui_game Hpos%elem_of_all_positions. unfold press.
  destruct (mousePressEvent row col mb) as [a|] eqn:Ea; [|by eexists].
  destruct (perform_in_grid_returns (game w) a Hg) as [g' Hperf].
  { destruct mb; simpl in Ea; by simplify_eq. }
  pose proof (perform_ui_game w a) as E. rewrite Hperf in E.
  destruct (perform_ui w a) as [w'|w'|]; [by eexists|done|done].
Qed.

Lemma reachable_ui_presses w events :
  reachable_ui w →
  Forall (λ ev, in_grid (N (game w)) ev.1) events →
  reachable_ui (presses w events).
Proof.
  revert w. induction events as [|[[row col] mb] events IH]; intros w Hw Hall; [done|].
  apply Forall_cons in Hall as [Hev Hall]. simpl in *.
  assert (Hpos : (row, col) ∈ all_positions (N (game w)))
    by by apply elem_of_all_positions.
  destruct (press_returns w row col mb Hw Hpos) as [w' Hpress].
  rewrite Hpress. simpl.
  assert (Hw' : reachable_ui w') by by apply (reachable_ui_press w row col mb).
  apply IH; [done|].
  assert (N (game w') = N (game w)) as ->; [|done].
  unfold press in Hpress.
  destruct (mousePressEvent row col mb) as [a|] eqn:Ea; [|by simplify_eq].
  destruct (reachable_ui_game w Hw) as [Hg Hs].
  destruct (perform_ui_synced w a w' (inv_wf _ (reachable_inv _ Hg)) Hs) as [? _];
    try done.
  destruct mb; simpl in Ea; by simplify_eq.
Qed.

Lemma corner_window_reachable : reachable_ui corner_window.
Proof. apply reachable_ui_new; [lia|lia|apply corner_sample]. Qed.

Lemma corner_window_presses events :
  Forall (λ ev : pos * MouseButton, in_grid 3 ev.1) events →
  reachable_ui (presses corner_window events).
Proof.
  intros Hall. by apply (reachable_ui_presses corner_window events
                           corner_window_reachable).
Qed.

(** X11. A mouse press on a button of the window never raises: the
    handler returns, and the window it leaves is again one the game can be
    in. *)
Theorem press_never_raises w row col mb :
  reachable_ui w → (row, col) ∈ all_positions (N (game w)) →
  ∃ w', press w row col mb = WReturn w' ∧ reachable_ui w'.
Proof.
  intros Hw Hpos. destruct (press_returns w row col mb Hw Hpos) as [w' Hpress].
  exists w'. split; [done|]. by apply (reachable_ui_press w row col mb).
Qed.

Lemma press_never_raises_witness :
  ∃ w', press corner_window 2 2 LeftButton = WReturn w' ∧ reachable_ui w'.
Proof.
  apply (press_never_raises corner_window 2 2 LeftButton).
  - apply corner_window_reachable.
  - apply elem_of_all_positions. unfold in_grid. simpl. lia.
Defined.

(** X12. In every window the game can be in, each button shows the face of
    its cell: the flag if the cell is flagged; else, if it is revealed, the
    star of a mine or the count of the cell (nothing for 0) in the colour
    of the count; else nothing. *)
Theorem display_shows_board w p :
  reachable_ui w → in_grid (N (game w)) p →
  button (buttons w) p = button_face (cell (board (game w)) p).
Proof. intros [_ [_ Hs]]%reachable_ui_game Hp. by apply Hs. Qed.

Lemma display_shows_board_witness :
  let w := presses corner_window [(0, 1, RightButton); (1, 1, LeftButton)] in
  button (buttons w) (1, 1) = button_face (cell (board (game w)) (1, 1)) ∧
  button (buttons w) (1, 1)
  = mkButton "1" "color: blue; background-color: lightgray;".
Proof.
  split; [|by vm_compute].
  apply (display_shows_board
           (presses corner_window [(0, 1, RightButton); (1, 1, LeftButton)])).
  - apply corner_window_presses. repeat constructor; simpl; lia.
  - by vm_compute.
Defined.

(** X13. The display hides the mines: two hidden cells with the same flag
    state have the same button, whether they are mines or not and whatever
    their counts are. *)
Theorem hidden_cells_look_alike w p q :
  reachable_ui w → in_grid (N (game w)) p → in_grid (N (game w)) q →
  is_revealed (cell (board (game w)) p) = false →
  is_revealed (cell (board (game w)) q) = false →
  is_flagged (cell (board (game w)) p) = is_flagged (cell (board (game w)) q) →
  button (buttons w) p = button (buttons w) q.
Proof.
  intros [_ [_ Hs]]%reachable_ui_game Hp Hq Hrp Hrq Hf.
  rewrite (Hs p Hp), (Hs q Hq). unfold button_face. by rewrite Hrp, Hrq, Hf.
Qed.

Lemma hidden_cells_look_alike_witness :
  let w := presses corner_window [(1, 1, LeftButton)] in
  is_mine (cell (board (game w)) (2, 2)) = true ∧
  is_mine (cell (board (game w)) (0, 0)) = false ∧
  button (buttons w) (2, 2) = button (buttons w) (0, 0).
Proof.
  split; [by vm_compute|]. split; [by vm_compute|].
  apply (hidden_cells_look_alike (presses corner_window [(1, 1, LeftButton)])).
  - apply corner_window_presses. repeat constructor; simpl; lia.
  - by vm_compute.
  - by vm_compute.
  - by vm_compute.
  - by vm_compute.
  - by vm_compute.
Defined.

Lemma reachable_count g p :
  reachable g → in_grid (N g) p → is_mine (cell (board g) p) = false →
  adjacent_mines (cell (board g) p) = mine_neighbors (N g) (board g) p ∧
  0 <= mine_neighbors (N g) (board g) p <= 8.
Proof.
  intros Hg%reachable_inv Hp Hm. rewrite (inv_adjacency g Hg p Hp).
  unfold adjacency_value. rewrite Hm.
  split; [by apply count_window_mines_neighbors|apply mine_neighbors_range].
Qed.

(** X14. The number on a button is the number of neighbouring mines: the
    button of a revealed, unflagged cell that is no mine shows the decimal
    numeral of the count of mines among the neighbours of the cell, or
    nothing if that count is 0. *)
Theorem shown_number_is_mine_count w p :
  reachable_ui w → in_grid (N (game w)) p →
  is_revealed (cell (board (game w)) p) = true →
  is_flagged (cell (board (game w)) p) = false →
  is_mine (cell (board (game w)) p) = false →
  let k := mine_neighbors (N (game w)) (board (game w)) p in
  button_text (button (buttons w) p) = (if 0 <? k then py_str k else "").
Proof.
  intros Hw Hp Hr Hf Hm k. destruct (reachable_ui_game w Hw) as [Hg [_ Hs]].
  destruct (reachable_count (game w) p Hg Hp Hm) as [Hk _].
  rewrite (Hs p Hp). unfold button_face. rewrite Hf, Hr, Hm. simpl.
  by rewrite Hk.
Qed.

Lemma shown_number_is_mine_count_witness :
  let w := presses corner_window [(1, 1, LeftButton)] in
  button_text (button (buttons w) (1, 1))
  = (if 0 <? mine_neighbors (N (game w)) (board (game w)) (1, 1)
     then py_str (mine_neighbors (N (game w)) (board (game w)) (1, 1)) else "").
Proof.
  apply (shown_number_is_mine_count (presses corner_window [(1, 1, LeftButton)])).
  - apply corner_window_presses. repeat constructor; simpl; lia.
  - by vm_compute.
  - by vm_compute.
  - by vm_compute.
  - by vm_compute.
Defined.

Lemma py_str_not_star k : 1 <= k <= 8 → py_str k ≠ "*".
Proof.
  intros Hk.
  assert (k = 1 ∨ k = 2 ∨ k = 3 ∨ k = 4 ∨ k = 5 ∨ k = 6 ∨ k = 7 ∨ k = 8)
    as Hcases by lia.
  repeat (destruct Hcases as [->|Hcases]; [by vm_compute|]). subst. by vm_compute.
Qed.

(** X15. A button shows the star only for an unflagged, revealed mine, and
    only after the game is lost. *)
Theorem star_means_lost w p :
  reachable_ui w → in_grid (N (game w)) p →
  button_text (button (buttons w) p) = "*" →
  is_mine (cell (board (game w)) p) = true ∧
  is_revealed (cell (board (game w)) p) = true ∧
  is_flagged (cell (board (game w)) p) = false ∧
  game_over (game w) = true ∧ info_label (game w) = lost_text.
Proof.
  intros Hw Hp Ht. destruct (reachable_ui_game w Hw) as [Hg [_ Hs]].
  rewrite (Hs p Hp) in Ht. unfold button_face in Ht.
  destruct (is_flagged (cell (board (game w)) p)) eqn:Hf; [done|].
  destruct (is_revealed (cell (board (game w)) p)) eqn:Hr; [|done].
  destruct (is_mine (cell (board (game w)) p)) eqn:Hm.
  - split_and!; try done.
    + destruct (reachable_outcome _ Hg) as [Hprog Hover].
      destruct (game_over (game w)) eqn:Hgo; [done|].
      destruct (Hprog eq_refl) as [_ Hh]. rewrite (Hh p Hp Hm) in Hr. done.
    + destruct (reachable_outcome _ Hg) as [Hprog Hover].
      destruct (game_over (game w)) eqn:Hgo.
      * destruct (Hover eq_refl) as [(_ & _ & Hh)|[? _]]; [|done].
        rewrite (Hh p Hp Hm) in Hr. done.
      * destruct (Hprog eq_refl) as [_ Hh]. rewrite (Hh p Hp Hm) in Hr. done.
  - exfalso. simpl in Ht.
    destruct (reachable_count (game w) p Hg Hp Hm) as [Hk Hrange].
    destruct (Z.ltb_spec 0 (adjacent_mines (cell (board (game w)) p))); [|done].
    apply (py_str_not_star (adjacent_mines (cell (board (game w)) p))); [lia|done].
Qed.

Lemma star_means_lost_witness :
  let w := presses corner_window [(2, 2, LeftButton)] in
  is_mine (cell (board (game w)) (2, 2)) = true ∧
  is_revealed (cell (board (game w)) (2, 2)) = true ∧
  is_flagged (cell (board (game w)) (2, 2)) = false ∧
  game_over (game w) = true ∧ info_label (game w) = lost_text.
Proof.
  apply (star_means_lost (presses corner_window [(2, 2, LeftButton)])).
  - apply corner_window_presses. repeat constructor; simpl; lia.
  - by vm_compute.
  - by vm_compute.
Defined.

(** ** Replay *)

(** X16. A replay from any window the game can be in builds a window the
    game can be in: the parameters it reuses are still valid, the new game
    is in progress with the same N and M, and all its cells are hidden and
    unflagged behind blank buttons. *)
Theorem replay_starts_afresh w mine_positions :
  reachable_ui w →
  is_sample (all_positions (N (game w))) (M (game w)) mine_positions →
  let w' := _replay_game w mine_positions in
  reachable_ui w' ∧
  N (game w') = N (game w) ∧ M (game w') = M (game w) ∧
  game_over (game w') = false ∧ info_label (game w') = start_text ∧
  mine_count (board (game w')) = M (game w) ∧
  ∀ p, in_grid (N (game w)) p →
    is_revealed (cell (board (game w')) p) = false ∧
    is_flagged (cell (board (game w')) p) = false ∧
    button (buttons w') p = new_button.
Proof.
  intros Hw Hs w'. destruct (reachable_ui_game w Hw) as [Hg _].
  pose proof (reachable_inv _ Hg) as Hinv.
  pose proof (inv_size _ Hinv) as Hn. pose proof (inv_mines _ Hinv) as Hm.
  assert (Hw' : reachable_ui w') by by apply reachable_ui_new.
  destruct (reachable_ui_game w' Hw') as [Hg' [_ Hsync]].
  split_and!; try done.
  - apply (inv_mine_count _ (reachable_inv _ Hg')).
  - intros p Hp. destruct Hs as (_ & Hsub & _).
    destruct (new_board_cell _ _ p Hsub Hp) as [_ Hc].
    simpl in *. rewrite (Hsync p Hp). by rewrite Hc.
Qed.

Lemma replay_starts_afresh_witness :
  let w := presses corner_window [(2, 2, LeftButton)] in
  let w' := _replay_game w [(0, 0)] in
  reachable_ui w' ∧
  N (game w') = N (game w) ∧ M (game w') = M (game w) ∧
  game_over (game w') = false ∧ info_label (game w') = start_text ∧
  mine_count (board (game w')) = M (game w) ∧
  ∀ p, in_grid (N (game w)) p →
    is_revealed (cell (board (game w')) p) = false ∧
    is_flagged (cell (board (game w')) p) = false ∧
    button (buttons w') p = new_button.
Proof.
  apply (replay_starts_afresh (presses corner_window [(2, 2, LeftButton)]) [(0, 0)]).
  - apply corner_window_presses. repeat constructor; simpl; lia.
  - split_and!; [apply NoDup_singleton| |by vm_compute].
    intros p ->%list_elem_of_singleton. apply elem_of_all_positions.
    apply (bool_decide_unpack _). by vm_compute.
Defined.

(** * What the handlers leave alone *)

Lemma state_after_mines g a :
  reachable g →
  ∀ q, in_grid (N g) q →
    is_mine (cell (board (state_after g (perform g a))) q)
    = is_mine (cell (board g) q) ∧
    adjacent_mines (cell (board (state_after g (perform g a))) q)
    = adjacent_mines (cell (board g) q).
Proof.
  intros Hg q Hq. pose proof (reachable_inv g Hg) as Hinv.
  assert (Hstep : click_step g a (perform g a)).
  { apply perform_step; [|apply Hinv]. pose proof (inv_size g Hinv). lia. }
  destruct (perform g a) as [g'|g'|] eqn:E; simpl; [| |done].
  - destruct (click_step_cells g a g' (inv_wf g Hinv) Hstep) as (_ & _ & _ & Hcells).
    by destruct (Hcells q Hq) as (? & ? & _).
  - by apply click_step_raises in Hstep as ->.
Qed.

(** X17. The mines never move: after any sequence of calls every cell has
    the [is_mine] and the [adjacent_mines] it was generated with; the first
    reveal is not treated differently from the later ones. *)
Theorem mines_never_move n m mine_positions acts p :
  0 < n → 0 <= m < n * n →
  is_sample (all_positions n) m mine_positions →
  in_grid n p →
  let g0 := MinesweeperWindow n m mine_positions in
  is_mine (cell (board (play g0 acts)) p) = bool_decide (p ∈ mine_positions) ∧
  adjacent_mines (cell (board (play g0 acts)) p)
  = adjacent_mines (cell (board g0) p).
Proof.
  intros Hn Hm Hs Hp g0.
  assert (Hg0 : reachable g0) by by apply reachable_new.
  assert (Hplay : ∀ g, reachable g → N g = n →
    is_mine (cell (board (play g acts)) p) = is_mine (cell (board g) p) ∧
    adjacent_mines (cell (board (play g acts)) p)
    = adjacent_mines (cell (board g) p)).
  { induction acts as [|a acts IH]; intros g Hg HN; [done|]. simpl.
    destruct (state_after_cells g a Hg) as [EN _].
    destruct (state_after_mines g a Hg p) as [Em Ea]; [by rewrite HN|].
    destruct (IH (state_after g (perform g a))) as [-> ->];
      [by apply reachable_state_after|by rewrite EN|done]. }
  destruct (Hplay g0 Hg0 eq_refl) as [-> ->]. split; [|done].
  destruct Hs as (_ & Hsub & _).
  destruct (new_board_cell n mine_positions p Hsub Hp) as [_ Hc].
  simpl in *. by rewrite Hc.
Qed.

Lemma mines_never_move_witness :
  let g0 := MinesweeperWindow 3 1 [(2, 2)] in
  is_mine (cell (board (play g0 [LeftClick 1 1; RightClick 2 2])) (2, 2))
  = bool_decide ((2, 2) ∈ [(2, 2)]) ∧
  adjacent_mines (cell (board (play g0 [LeftClick 1 1; RightClick 2 2])) (2, 2))
  = adjacent_mines (cell (board g0) (2, 2)).
Proof.
  apply (mines_never_move 3 1 [(2, 2)] [LeftClick 1 1; RightClick 2 2] (2, 2)).
  - lia.
  - lia.
  - apply corner_sample.
  - unfold in_grid. simpl. lia.
Defined.

(** X18. A reveal never changes a flag: after a [left_click] that returns,
    every cell is flagged exactly if it was flagged before. *)
Theorem reveal_keeps_flags g row col g' :
  wf_board (N g) (board g) → 0 <= N g →
  left_click g row col = Return g' →
  ∀ p, in_grid (N g) p →
    is_flagged (cell (board g') p) = is_flagged (cell (board g) p).
Proof.
  intros Hwf Hn Hclick p Hp.
  pose proof (perform_step g (LeftClick row col) Hn Hwf) as Hstep.
  simpl in Hstep. rewrite Hclick in Hstep.
  inversion Hstep as
    [ a' Hgo | | | row' col' i j q Hgo Hloc Hq Hblock
    | row' col' i j b2 q Hgo Hloc Hq Hf Hr Hm Hwf2 Hc2
    | row' col' i j b2 q Hgo Hloc Hq Hf Hr Hm Hwf2 Hc2 | | ]; subst; try done.
  - simpl. rewrite Hc2 by done. by destruct (is_mine (cell (board g) p)).
  - assert (Eb : board (if _check_win (N g) b2
                        then finish won_text (with_board b2 g)
                        else with_board b2 g) = b2)
      by by destruct (_check_win _ _).
    rewrite Eb. destruct (Hc2 p Hp) as [_ [->|[_ ->]]]; done.
Qed.

Lemma reveal_keeps_flags_witness :
  let g := play corner_game [RightClick 0 1] in
  ∃ g', left_click g 0 0 = Return g' ∧
    ∀ p, in_grid (N g) p →
      is_flagged (cell (board g') p) = is_flagged (cell (board g) p).
Proof.
  exists (play corner_game [RightClick 0 1; LeftClick 0 0]).
  split; [by vm_compute|].
  apply (reveal_keeps_flags (play corner_game [RightClick 0 1]) 0 0).
  - apply (inv_wf _ (reachable_inv _
             (reachable_play _ [RightClick 0 1] corner_game_reachable))).
  - by vm_compute.
  - by vm_compute.
Defined.

(** X19. A toggle-flag call changes nothing but one flag: after a
    [right_click] at a grid position that returns, [game_over] and the text
    of [info_label] are as before, every other cell is as before, and the
    cell itself has kept [is_mine], [adjacent_mines] and [is_revealed]. *)
Theorem toggle_changes_one_flag g row col g' :
  wf_board (N g) (board g) → in_grid (N g) (row, col) →
  right_click g row col = Return g' →
  game_over g' = game_over g ∧ info_label g' = info_label g ∧
  ∀ p, in_grid (N g) p →
    (p ≠ (row, col) → cell (board g') p = cell (board g) p) ∧
    is_mine (cell (board g') p) = is_mine (cell (board g) p) ∧
    adjacent_mines (cell (board g') p) = adjacent_mines (cell (board g) p) ∧
    is_revealed (cell (board g') p) = is_revealed (cell (board g) p).
Proof.
  intros Hwf Hs Hclick.
  assert (Hn : 0 <= N g) by (destruct Hs as [? _]; simpl in *; lia).
  pose proof (perform_step g (RightClick row col) Hn Hwf) as Hstep.
  simpl in Hstep. rewrite Hclick in Hstep.
  inversion Hstep as
    [ a' Hgo | | | | | | row' col' i j q Hgo Hloc Hq Hr
    | row' col' i j b2 q Hgo Hloc Hq Hr Hwf2 Hc2 ]; subst; try done.
  simpl. split; [done|]. split; [done|]. intros p Hp.
  pose proof (locate_in_grid_pos _ _ _ _ _ _ Hwf Hs Hloc) as Ep.
  rewrite Hc2 by done. fold q in Ep.
  destruct (decide (q = p)) as [<-|Hne]; [|done].
  rewrite Ep. by split_and!.
Qed.

Lemma toggle_changes_one_flag_witness :
  ∃ g', right_click corner_game 2 2 = Return g' ∧
  game_over g' = game_over corner_game ∧
  info_label g' = info_label corner_game ∧
  ∀ p, in_grid (N corner_game) p →
    (p ≠ (2, 2) → cell (board g') p = cell (board corner_game) p) ∧
    is_mine (cell (board g') p) = is_mine (cell (board corner_game) p) ∧
    adjacent_mines (cell (board g') p)
    = adjacent_mines (cell (board corner_game) p) ∧
    is_revealed (cell (board g') p) = is_revealed (cell (board corner_game) p).
Proof.
  exists (play corner_game [RightClick 2 2]). split; [by vm_compute|].
  apply (toggle_changes_one_flag corner_game 2 2).
  - apply (inv_wf _ (reachable_inv _ corner_game_reachable)).
  - unfold in_grid. simpl. lia.
  - by vm_compute.
Defined.
